(** * xjson: deep get / set over a JSON tree, and the JSON-directory loader

    A shallow embedding of [xjson.go].  Go's [map[string]any] is a reference:
    the tree is a store of maps addressed by locations, and [Get], [SetF],
    [Store] and the loaders are computations over that store. *)

From Stdlib Require Import ZArith String Ascii List.
From stdpp Require Import base option list gmap strings fin_maps pretty.

Local Open Scope string_scope.
Local Open Scope list_scope.
Local Open Scope Z_scope.

Set Warnings "-register-all".

(** ** Go types and dynamically typed values *)

(** The static types a caller can instantiate [T] with, and the dynamic
    types a value of type [any] can carry.  [TAny] is the interface type
    [any]; every other type is concrete. *)
Inductive ty : Type :=
| TAny
| TBool
| TInt
| TFloat64
| TString
| TMap                 (* map[string]any *)
| TSlice (elem : ty).  (* []elem *)

#[global] Instance ty_eq_dec : EqDecision ty.
Proof. solve_decision. Defined.

(** A made map is a location of the store; a value of type
    [map[string]any] is a reference to a made map, or the nil map. *)
Definition loc := positive.
Definition mapref := option loc.

(** A value of type [any].  [VNil] is the nil interface (JSON null);
    [VFloat64] carries the 64 bits of the number, which the engine never
    inspects; a slice is modelled by its elements, the engine only reads
    slices and appends to them. *)
Inductive value : Type :=
| VNil
| VBool (b : bool)
| VInt (n : Z)
| VFloat64 (bits : Z)
| VString (s : string)
| VMap (r : mapref)
| VSlice (elem : ty) (xs : list value).

(** The dynamic type of a value; the nil interface has none. *)
Definition dyn_type (v : value) : option ty :=
  match v with
  | VNil => None
  | VBool _ => Some TBool
  | VInt _ => Some TInt
  | VFloat64 _ => Some TFloat64
  | VString _ => Some TString
  | VMap _ => Some TMap
  | VSlice t _ => Some (TSlice t)
  end.

(** The comma-ok type assertion [q.(T)].  It fails on the nil interface
    whatever [T] is; for the interface type [any] it succeeds on every
    other value; for a concrete [T] it succeeds when [T] is the dynamic
    type of [q]. *)
Definition type_assert (T : ty) (q : value) : option value :=
  match T with
  | TAny => match q with VNil => None | _ => Some q end
  | _ => if decide (dyn_type q = Some T) then Some q else None
  end.

(** What the verb [%T] prints. *)
Fixpoint type_name (t : ty) : string :=
  match t with
  | TAny => "interface {}"
  | TBool => "bool"
  | TInt => "int"
  | TFloat64 => "float64"
  | TString => "string"
  | TMap => "map[string]interface {}"
  | TSlice e => "[]" ++ type_name e
  end.

Definition fmt_T (t : option ty) : string :=
  match t with
  | None => "<nil>"
  | Some t => type_name t
  end.

(** [*new(T)], the zero value of [T]; it is also what [r] holds after a
    failed assertion [r, ok := q.(T)].  The zero value of the interface
    type is the nil interface, that of a map type the nil map; a nil
    slice has no elements. *)
Definition zero_value (T : ty) : value :=
  match T with
  | TAny => VNil
  | TBool => VBool false
  | TInt => VInt 0
  | TFloat64 => VFloat64 0
  | TString => VString ""
  | TMap => VMap None
  | TSlice e => VSlice e []
  end.

(** ** Errors *)

(** Error values: [errors.New] and [fmt.Errorf] without [%w] give an
    [errorString]; [fmt.Errorf] with one [%w] gives a [wrapError] holding
    the formatted text and the wrapped error; [errors.Join] of two
    errors gives a [joinError].  [External] is an error made by the [os]
    package: its text, and whether [errors.Is] finds [os.ErrNotExist]
    in it.  [SyntaxError] is [*json.SyntaxError]. *)
Inductive error : Type :=
| errorString (s : string)
| wrapError (msg : string) (err : error)
| joinError (e0 e1 : error)
| External (text : string) (not_exist : bool)
| SyntaxError (text : string) (Offset : Z).

Fixpoint Error (e : error) : string :=
  match e with
  | errorString s => s
  | wrapError msg _ => msg
  | joinError e0 e1 => Error e0 ++ String "010"%char (Error e1)
  | External text _ => text
  | SyntaxError text _ => text
  end.

(** [errors.Is(err, os.ErrNotExist)]. *)
Fixpoint Is_ErrNotExist (e : error) : bool :=
  match e with
  | errorString _ => false
  | wrapError _ err => Is_ErrNotExist err
  | joinError e0 e1 => Is_ErrNotExist e0 || Is_ErrNotExist e1
  | External _ ne => ne
  | SyntaxError _ _ => false
  end.

Definition ErrBadPath : error := errorString "bad path".
Definition ErrBadType : error := errorString "bad type".

(** [strings.Join(xs, sep)]. *)
Fixpoint strings_Join (xs : list string) (sep : string) : string :=
  match xs with
  | [] => ""
  | [x] => x
  | x :: rest => x ++ sep ++ strings_Join rest sep
  end.

Definition PathString (xs : list string) : string := strings_Join xs ".".

(** [fmt.Errorf("%w: %s", ErrBadPath, PathString(prefix))]. *)
Definition bad_path (prefix : list string) : error :=
  wrapError (Error ErrBadPath ++ ": " ++ PathString prefix) ErrBadPath.

(** [fmt.Errorf("%w: '%s'; got '%T', expected '%T'", ErrBadType,
    PathString(path), got, r)]. *)
Definition bad_type (path : list string) (got r : option ty) : error :=
  wrapError (Error ErrBadType ++ ": '" ++ PathString path ++ "'; got '"
             ++ fmt_T got ++ "', expected '" ++ fmt_T r ++ "'") ErrBadType.

(** ** The store and its monad *)

(** The store maps the location of every made map to its content.  The
    nil map reads as empty, and assigning to one of its entries panics.
    The references of a Go program point to made maps; a reference to a
    location the store does not hold is given the behaviour of the nil
    map. *)
Abbreviation heap := (gmap loc (gmap string value)).

(** The content of a made map. *)
Definition content (h : heap) (p : mapref) : option (gmap string value) :=
  match p with
  | Some l => h !! l
  | None => None
  end.

(** The entries a map reads as. *)
Definition map_of (h : heap) (p : mapref) : gmap string value :=
  default ∅ (content h p).

(** The store with the content of the made map [p] replaced. *)
Definition set_content (p : mapref) (m : gmap string value) (h : heap) : heap :=
  match p with
  | Some l => <[l := m]> h
  | None => h
  end.

Inductive outcome (A : Type) : Type :=
| Done (a : A) (h : heap)
| Panic (msg : string).
Arguments Done {A} a h.
Arguments Panic {A} msg.

Definition M (A : Type) : Type := heap -> outcome A.

Definition ret {A} (a : A) : M A := fun h => Done a h.

Definition bind {A B} (c : M A) (k : A -> M B) : M B :=
  fun h => match c h with
           | Done a h' => k a h'
           | Panic msg => Panic msg
           end.

#[global] Instance M_ret : MRet M := @ret.
#[global] Instance M_bind : MBind M := fun A B k c => bind c k.

Definition panic {A} (msg : string) : M A := fun _ => Panic msg.

(** [make(map[string]any)]. *)
Definition make_map : M mapref :=
  fun h => let l := fresh (dom h) in Done (Some l) (<[l := ∅]> h).

(** [q, ok := p[x]]. *)
Definition map_lookup (p : mapref) (x : string) : M (option value) :=
  fun h => Done (map_of h p !! x) h.

(** [p[x]] as an expression: the zero value of [any] when [x] is absent. *)
Definition map_index (p : mapref) (x : string) : M value :=
  oq ← map_lookup p x; ret (default VNil oq).

(** [p[x] = v]. *)
Definition map_assign (p : mapref) (x : string) (v : value) : M unit :=
  fun h => match content h p with
           | Some m => Done tt (set_content p (<[x := v]> m) h)
           | None => Panic "assignment to entry in nil map"
           end.

(** The entries [for k, x := range w] goes through.  The keys are
    distinct, so the order of the visit does not show in what the loops
    of this package do with them. *)
Definition map_range (w : mapref) : M (list (string * value)) :=
  fun h => Done (map_to_list (map_of h w)) h.

(** [for k, x := range w { q[k] = x }]. *)
Fixpoint assign_all (q : mapref) (kvs : list (string * value)) : M unit :=
  match kvs with
  | [] => ret tt
  | (k, x) :: kvs' => map_assign q k x;; assign_all q kvs'
  end.

Definition merge_into (q w : mapref) : M unit :=
  kvs ← map_range w; assign_all q kvs.

(** ** Deep get *)

(** The loop [for n, x := range xs] of [Get], at index [n] with [rest]
    the segments from [n] on and [p] the current map. *)
Fixpoint Get_loop (T : ty) (xs : list string) (n : nat) (rest : list string)
    (p : mapref) : M (value * option error) :=
  let tnil := zero_value T in
  match rest with
  | [] => ret (tnil, Some (bad_path xs))
  | x :: rest' =>
      oq ← map_lookup p x;
      match oq with
      | None => ret (tnil, Some (bad_path (take (n + 1) xs)))
      | Some q =>
          if (n =? length xs - 1)%nat then
            match type_assert T q with
            | Some r => ret (r, None)
            | None =>
                let r := zero_value T in
                px ← map_index p x;
                ret (tnil, Some (bad_type (take (n + 1) xs) (dyn_type px)
                                          (dyn_type r)))
            end
          else
            match q with
            | VMap r => Get_loop T xs (n + 1) rest' r
            | _ => ret (tnil, Some (bad_path (take (n + 1) xs)))
            end
      end
  end.

Definition Get (T : ty) (db : mapref) (xs : list string)
  : M (value * option error) :=
  Get_loop T xs 0 xs db.

(** ** Deep set *)

Definition SetFlags := Z.
Definition MergeMaps : SetFlags := 1.
Definition AppendArrays : SetFlags := 2.
Definition ForceThrough : SetFlags := 4.

(** [flags & f == f]. *)
Definition has_flag (flags f : SetFlags) : bool := (Z.land flags f =? f)%Z.

(** The [MergeMaps] block at the final segment: [true] when it ran the
    merge (and the loop continues). *)
Definition try_merge (flags : SetFlags) (v : value) (p : mapref) (x : string)
  : M bool :=
  if has_flag flags MergeMaps then
    px ← map_index p x;
    match v, px with
    | VMap w, VMap q => merge_into q w;; ret true
    | _, _ => ret false
    end
  else ret false.

(** The [AppendArrays] block at the final segment. *)
Definition try_append (T : ty) (flags : SetFlags) (v : value) (p : mapref)
    (x : string) : M bool :=
  if has_flag flags AppendArrays then
    px ← map_index p x;
    match type_assert (TSlice T) v, type_assert (TSlice T) px with
    | Some (VSlice _ w), Some (VSlice _ q) =>
        map_assign p x (VSlice T (q ++ w));; ret true
    | _, _ => ret false
    end
  else ret false.

(** [p[x] = make(map[string]any); p = p[x].(map[string]any)]: the
    single-valued assertion panics on anything but a map. *)
Definition fresh_child (p : mapref) (x : string) : M mapref :=
  l ← make_map;
  map_assign p x (VMap l);;
  px ← map_index p x;
  match px with
  | VMap r => ret r
  | _ => panic "interface conversion: interface {} is not map[string]interface {}"
  end.

Fixpoint SetF_loop (T : ty) (xs : list string) (v : value) (flags : SetFlags)
    (n : nat) (rest : list string) (p : mapref) : M (option error) :=
  match rest with
  | [] => ret None
  | x :: rest' =>
      if (n =? length xs - 1)%nat then
        merged ← try_merge flags v p x;
        if merged : bool then SetF_loop T xs v flags (n + 1) rest' p
        else
          appended ← try_append T flags v p x;
          if appended : bool then SetF_loop T xs v flags (n + 1) rest' p
          else map_assign p x v;; ret None
      else
        oq ← map_lookup p x;
        match oq with
        | None =>
            r ← fresh_child p x;
            SetF_loop T xs v flags (n + 1) rest' r
        | Some (VMap r) => SetF_loop T xs v flags (n + 1) rest' r
        | Some _ =>
            if negb (has_flag flags ForceThrough) then
              ret (Some (bad_path (take (n + 1) xs)))
            else
              r ← fresh_child p x;
              SetF_loop T xs v flags (n + 1) rest' r
        end
  end.

Definition SetF (T : ty) (db : mapref) (xs : list string) (v : value)
    (flags : SetFlags) : M (option error) :=
  SetF_loop T xs v flags 0 xs db.

Definition Set_ (db : mapref) (xs : list string) (v : value) : M (option error) :=
  SetF TAny db xs v MergeMaps.

(** ** Strings and paths

    The functions of the Go packages [strings] and [path/filepath] the
    source calls, on Unix, where [os.PathSeparator] is the slash. *)

Definition PathSeparator : ascii := "/"%char.

(** [strings.Split(s, string(sep))] for a one-byte separator. *)
Fixpoint strings_Split (s : string) (sep : ascii) : list string :=
  match s with
  | EmptyString => [""]
  | String a s' =>
      if Ascii.eqb a sep then "" :: strings_Split s' sep
      else match strings_Split s' sep with
           | [] => [String a ""]
           | w :: ws => String a w :: ws
           end
  end.

Definition splitPath (path : string) : list string :=
  strings_Split path PathSeparator.

Definition string_rev (s : string) : string :=
  string_of_list_ascii (rev (list_ascii_of_string s)).

Definition strings_HasSuffix (s suffix : string) : bool :=
  String.prefix (string_rev suffix) (string_rev s).

(** [strings.TrimSuffix(s, suffix)]. *)
Definition strings_TrimSuffix (s suffix : string) : string :=
  if strings_HasSuffix s suffix
  then String.substring 0 (String.length s - String.length suffix) s
  else s.

(** [strings.TrimRight(s, string(c))]: every trailing [c] removed. *)
Fixpoint drop_leading (c : ascii) (l : list ascii) : list ascii :=
  match l with
  | a :: l' => if Ascii.eqb a c then drop_leading c l' else l
  | [] => []
  end.

Definition strings_TrimRight (s : string) (c : ascii) : string :=
  string_of_list_ascii (rev (drop_leading c (rev (list_ascii_of_string s)))).

(** [filepath.Ext]: the loop goes back from the end of the path to the
    last separator and returns the text from the first dot it meets. *)
Fixpoint Extscan (back : list ascii) (seen : list ascii) : string :=
  match back with
  | [] => ""
  | c :: back' =>
      if Ascii.eqb c PathSeparator then ""
      else if Ascii.eqb c "."%char then string_of_list_ascii (c :: seen)
      else Extscan back' (c :: seen)
  end.

Definition filepath_Ext (path : string) : string :=
  Extscan (rev (list_ascii_of_string path)) [].

(** [filepath.Clean], on the elements of the path: empty elements and
    [.] are dropped, [..] removes the element before it, is dropped at
    the root, and is kept at the front of a path that is not rooted. *)
Fixpoint Clean_elems (rooted : bool) (ups : nat) (kept : list string)
    (elems : list string) : list string :=
  match elems with
  | [] => repeat ".." ups ++ rev kept
  | e :: elems' =>
      if String.eqb e "" || String.eqb e "." then
        Clean_elems rooted ups kept elems'
      else if String.eqb e ".." then
        match kept with
        | _ :: kept' => Clean_elems rooted ups kept' elems'
        | [] => if rooted then Clean_elems rooted ups [] elems'
                else Clean_elems rooted (S ups) [] elems'
        end
      else Clean_elems rooted ups (e :: kept) elems'
  end.

Definition is_rooted (path : string) : bool :=
  match path with
  | String a _ => Ascii.eqb a PathSeparator
  | EmptyString => false
  end.

Definition filepath_Clean (path : string) : string :=
  let rooted := is_rooted path in
  let out := strings_Join (Clean_elems rooted 0 [] (splitPath path)) "/" in
  if rooted then "/" ++ out
  else if String.eqb out "" then "." else out.

(** The elements the loop of [filepath.Rel] steps through in a cleaned
    path: the text between separators, nothing after a last separator. *)
Definition Rel_elems (s : string) : list string :=
  match rev (splitPath s) with
  | "" :: front => rev front
  | _ => splitPath s
  end.

(** The loop of [filepath.Rel], [for bi <= bl && ti <= tl]: the elements
    of [base] and [targ] left at the first difference, and the element of
    [base] the loop stopped on.  A side that has run out reads as the
    empty element from then on: when [targ] runs out first the loop goes
    round once more and stops on the next element of [base], and when
    [base] runs out it stops on the empty element.  Both run out only
    when the two cleaned paths are the same, which [filepath.Rel] has
    answered before the loop. *)
Fixpoint Rel_loop (bs ts : list string) : string * list string * list string :=
  match bs, ts with
  | b :: bs', t :: ts' =>
      if String.eqb t b then Rel_loop bs' ts' else (b, bs, ts)
  | b :: _, [] => (b, bs, [])
  | [], _ => ("", [], ts)
  end.

Definition Rel_error (basepath targpath : string) : error :=
  errorString ("Rel: can't make " ++ targpath ++ " relative to " ++ basepath).

(** [filepath.Rel(basepath, targpath)]. *)
Definition filepath_Rel (basepath targpath : string) : string * option error :=
  let base := filepath_Clean basepath in
  let targ := filepath_Clean targpath in
  if String.eqb targ base then (".", None)
  else
    let base := if String.eqb base "." then "" else base in
    if negb (Bool.eqb (is_rooted base) (is_rooted targ)) then
      ("", Some (Rel_error basepath targpath))
    else
      let '(stop, bs, ts) := Rel_loop (Rel_elems base) (Rel_elems targ) in
      if String.eqb stop ".." then ("", Some (Rel_error basepath targpath))
      else
        match bs with
        | [] => (strings_Join ts "/", None)
        | _ :: _ =>
            (strings_Join (repeat ".." (length bs) ++ ts) "/", None)
        end.

(** ** The package's own path helpers *)

Definition Ext : string := ".json".

Definition TrimExt (fn : string) : string :=
  strings_TrimSuffix fn (filepath_Ext fn).

Definition isRoot (ind fn : string) : bool :=
  String.eqb (filepath_Clean ind) (filepath_Clean (TrimExt fn)).

Definition GetPaths (path : string) : string * string :=
  if strings_HasSuffix path Ext
  then (strings_TrimSuffix (strings_TrimRight path "/"%char) Ext, path)
  else (path, (path ++ Ext)%string).

(** ** Storing a decoded file in the tree *)

Definition Store (ind fn : string) (y : value) (db : mapref) : M (option error) :=
  match filepath_Rel ind fn with
  | (_, Some err) => ret (Some err)
  | (rel, None) =>
      if isRoot ind fn then
        match y with
        | VMap z => merge_into db z;; ret None
        | _ => ret (Some (errorString "root isn't a hash"))
        end
      else
        let xs := splitPath (strings_TrimSuffix rel (filepath_Ext fn)) in
        Set_ db xs y
  end.

(** ** Reading files and directories

    The file system and the JSON decoder are outside the package: the
    loaders take them as the functions [os.ReadFile], [json.Unmarshal]
    (decoding into a [*any], which makes the maps of the document in the
    store) and the sequence of calls [filepath.Walk] makes to its
    callback, each with a path, [info.IsDir()] and the error of the visit. *)

(** [errors.As(err, &jErr)] for [jErr *json.SyntaxError]: the offset of
    the first syntax error in the chain. *)
Fixpoint As_SyntaxError (e : error) : option Z :=
  match e with
  | SyntaxError _ off => Some off
  | wrapError _ err => As_SyntaxError err
  | joinError e0 e1 =>
      match As_SyntaxError e0 with
      | Some off => Some off
      | None => As_SyntaxError e1
      end
  | errorString _ | External _ _ => None
  end.

Definition newline : ascii := "010"%char.

(** [bytes.Count(bs, "\n")]. *)
Fixpoint count_newlines (bs : list ascii) : Z :=
  match bs with
  | [] => 0
  | c :: bs' => (if Ascii.eqb c newline then 1 else 0) + count_newlines bs'
  end.

(** [bytes.LastIndex(bs, "\n")], [-1] when there is none; [i] is the
    index of the head of [bs]. *)
Fixpoint last_newline_from (i : Z) (bs : list ascii) : Z :=
  match bs with
  | [] => -1
  | c :: bs' =>
      let later := last_newline_from (i + 1) bs' in
      if 0 <=? later then later
      else if Ascii.eqb c newline then i else -1
  end.

Section Loader.

Variable os_ReadFile : string -> string * option error.
Variable json_Unmarshal : string -> M (value * option error).
Variable Walk_visits : string -> list (string * bool * option error).

Definition ReadFile (fn : string) : M (value * option error) :=
  match os_ReadFile fn with
  | (_, Some err) =>
      ret (VNil, Some (wrapError ("reading " ++ fn ++ ": " ++ Error err) err))
  | (bs, None) =>
      '(v, err) ← json_Unmarshal bs;
      match err ≫= (fun e => pair e <$> As_SyntaxError e) with
      | Some (e, off) =>
          if (off <? 0) || (Z.of_nat (String.length bs) <? off)
          then panic "slice bounds out of range"
          else
            let upto := take (Z.to_nat off) (list_ascii_of_string bs) in
            let line := 1 + count_newlines upto in
            let col := 1 + off - (last_newline_from 0 upto + 1) in
            ret (v, Some (wrapError
                   ("unmarshaling " ++ fn ++ ":" ++ pretty line ++ ":"
                    ++ pretty col ++ " " ++ Error e) e))
      | None => ret (v, err)
      end
  end.

Definition ReadAndStoreFile (ind fn : string) (db : mapref) : M (option error) :=
  '(v, err) ← ReadFile fn;
  match err with
  | Some e => ret (Some e)
  | None => Store ind fn v db
  end.

(** The callback of [ReadAndStoreDir] run over the visits of the walk:
    the walk stops at the first error the callback returns. *)
Fixpoint walk_calls (ind : string) (db : mapref)
    (visits : list (string * bool * option error)) : M (option error) :=
  match visits with
  | [] => ret None
  | (fn, is_dir, err) :: visits' =>
      match err with
      | Some e => ret (Some e)
      | None =>
          if is_dir : bool then walk_calls ind db visits'
          else
            r ← ReadAndStoreFile ind fn db;
            match r with
            | Some e => ret (Some e)
            | None => walk_calls ind db visits'
            end
      end
  end.

Definition ReadAndStoreDir (ind : string) (db : mapref) : M (option error) :=
  walk_calls ind db (Walk_visits ind).

(** [err != nil && !errors.Is(err, os.ErrNotExist)]. *)
Definition fatal (err : option error) : bool :=
  match err with
  | Some e => negb (Is_ErrNotExist e)
  | None => false
  end.

Definition DoReadAndStore (path : string) (db : mapref) : M (option error) :=
  let '(dn, fn) := GetPaths path in
  err0 ← ReadAndStoreFile dn fn db;
  if fatal err0 then ret err0
  else
    err1 ← ReadAndStoreDir dn db;
    if fatal err1 then ret err1
    else
      match err0, err1 with
      | Some e0, Some e1 => ret (Some (joinError e0 e1))
      | _, _ => ret None
      end.

Definition Read (path : string) : M (mapref * option error) :=
  db ← make_map;
  err ← DoReadAndStore path db;
  ret (db, err).

End Loader.

(** ** Notions the statements use *)

(** The maps [ks] leads through from [p], when every key of [ks] is
    present and holds a map. *)
Fixpoint walk (h : heap) (p : mapref) (ks : list string) : option mapref :=
  match ks with
  | [] => Some p
  | k :: ks' =>
      match map_of h p !! k with
      | Some (VMap r) => walk h r ks'
      | _ => None
      end
  end.

Definition is_map (v : value) : bool :=
  match v with VMap _ => true | _ => false end.

Definition assertable (T : ty) (v : value) : bool :=
  bool_decide (is_Some (type_assert T v)).

(** Every reference kept in a map of the store points to a made map. *)
Definition closed (h : heap) : Prop :=
  forall l m k r, h !! l = Some m -> m !! k = Some (VMap r) ->
                  is_Some (content h r).

(** Whether the [MergeMaps] block runs its merge, given the new value
    and the value [p[x]]. *)
Definition merge_applies (flags : SetFlags) (v px : value) : bool :=
  has_flag flags MergeMaps && is_map v && is_map px.

(** Whether the [AppendArrays] block runs its append. *)
Definition append_applies (T : ty) (flags : SetFlags) (v px : value) : bool :=
  has_flag flags AppendArrays && assertable (TSlice T) v
  && assertable (TSlice T) px.

(** The answer of [Get] at its last segment [x], where the map it has
    reached reads [oq] under [x]. *)
Definition Get_answer (T : ty) (path : list string) (oq : option value)
  : value * option error :=
  match oq with
  | None => (zero_value T, Some (bad_path path))
  | Some q =>
      match type_assert T q with
      | Some r => (r, None)
      | None => (zero_value T,
                 Some (bad_type path (dyn_type q) (dyn_type (zero_value T))))
      end
  end.

#[global] Instance error_eq_dec : EqDecision error.
Proof. solve_decision. Defined.

(** [errors.Is(err, target)] for a sentinel [target] of the package. *)
Fixpoint errors_Is (e target : error) : bool :=
  bool_decide (e = target)
  || match e with
     | wrapError _ err => errors_Is err target
     | joinError e0 e1 => errors_Is e0 target || errors_Is e1 target
     | _ => false
     end.

(** The error of [Store] on a root file that does not hold a map. *)
Definition root_not_a_hash : error := errorString "root isn't a hash".

(** ** A small file system

    The file [root.json] holds an object with [foo] set to [bar], and the
    directory [root] holds the file [foo.json] with the string [baz]. *)

Definition dq : string := String "034"%char "".

Definition doc_object : string :=
  "{" ++ dq ++ "foo" ++ dq ++ ":" ++ dq ++ "bar" ++ dq ++ "}".
Definition doc_string : string := dq ++ "baz" ++ dq.

Definition no_such_file (op fn : string) : error :=
  External (op ++ " " ++ fn ++ ": no such file or directory") true.

Definition demo_ReadFile (fn : string) : string * option error :=
  if String.eqb fn "root.json" then (doc_object, None)
  else if String.eqb fn "root/foo.json" then (doc_string, None)
  else ("", Some (no_such_file "open" fn)).

(** The decoder on the two documents of the file system. *)
Definition demo_Unmarshal (bs : string) : M (value * option error) :=
  if String.eqb bs doc_object then
    l ← make_map; map_assign l "foo" (VString "bar");; mret (VMap l, None)
  else if String.eqb bs doc_string then mret (VString "baz", None)
  else mret (VNil, Some (SyntaxError "invalid character" 0)).

Definition demo_Walk (ind : string) : list (string * bool * option error) :=
  if String.eqb ind "root"
  then [("root", true, None); ("root/foo.json", false, None)]
  else [(ind, false, Some (no_such_file "lstat" ind))].

(** The same file [root.json], beside a directory [root] that holds the
    directory [foo] with the file [x.json], the string [baz], in it. *)
Definition nested_ReadFile (fn : string) : string * option error :=
  if String.eqb fn "root.json" then (doc_object, None)
  else if String.eqb fn "root/foo/x.json" then (doc_string, None)
  else ("", Some (no_such_file "open" fn)).

Definition nested_Walk (ind : string) : list (string * bool * option error) :=
  if String.eqb ind "root"
  then [("root", true, None); ("root/foo", true, None);
        ("root/foo/x.json", false, None)]
  else [(ind, false, Some (no_such_file "lstat" ind))].

(** A file [root.json] that holds an object under [conf], with [foo] set
    to [old] and [keep] to [me], beside a directory [root] that holds the
    file [conf.json], the object with [foo] set to [bar]. *)
Definition doc_conf : string :=
  "{" ++ dq ++ "conf" ++ dq ++ ":{" ++ dq ++ "foo" ++ dq ++ ":" ++ dq ++ "old"
  ++ dq ++ "," ++ dq ++ "keep" ++ dq ++ ":" ++ dq ++ "me" ++ dq ++ "}}".

Definition conf_ReadFile (fn : string) : string * option error :=
  if String.eqb fn "root.json" then (doc_conf, None)
  else if String.eqb fn "root/conf.json" then (doc_object, None)
  else ("", Some (no_such_file "open" fn)).

Definition conf_Unmarshal (bs : string) : M (value * option error) :=
  if String.eqb bs doc_conf then
    l ← make_map; c ← make_map;
    map_assign c "foo" (VString "old");; map_assign c "keep" (VString "me");;
    map_assign l "conf" (VMap c);; mret (VMap l, None)
  else demo_Unmarshal bs.

Definition conf_Walk (ind : string) : list (string * bool * option error) :=
  if String.eqb ind "root"
  then [("root", true, None); ("root/conf.json", false, None)]
  else [(ind, false, Some (no_such_file "lstat" ind))].

(** ** Relations between stores *)

(** Every made map of [h] is a made map of [h'] with all its keys. *)
Definition grows (h h' : heap) : Prop :=
  forall l m, h !! l = Some m ->
              exists m', h' !! l = Some m' /\ dom m ⊆ dom m'.

(** Every entry of [h] that holds a map holds the same map in [h']. *)
Definition keeps_maps (h h' : heap) : Prop :=
  forall p k r, map_of h p !! k = Some (VMap r) ->
                map_of h' p !! k = Some (VMap r).

(** The maps [SetF] can be in or merge into on the path [xs] from [p]:
    [p], and the maps the segments of [xs] lead to for as long as they
    hold maps. *)
Fixpoint path_maps (h : heap) (p : mapref) (xs : list string) : list mapref :=
  p :: match xs with
       | [] => []
       | x :: xs' =>
           match map_of h p !! x with
           | Some (VMap r) => path_maps h r xs'
           | _ => []
           end
       end.

(** [closed], as a test. *)
#[global] Instance made_ref_dec (h : heap) (v : value) :
  Decision (match v with VMap r => is_Some (content h r) | _ => True end).
Proof. destruct v; apply _. Defined.

Definition closedb (h : heap) : bool :=
  bool_decide
    (map_Forall (fun _ (m : gmap string value) =>
       map_Forall (fun _ v => match v with
                              | VMap r => is_Some (content h r)
                              | _ => True
                              end) m) h).

(** The tree of the test [map_merge] at location 1, a map to merge into
    it at location 3, and a map that is in no tree at location 4. *)
Definition tree_to_foo : heap :=
  {[1%positive := {["to" := VMap (Some 2%positive)]};
    2%positive := {["foo" := VString "bar"]};
    3%positive := {["bar" := VString "baz"]};
    4%positive := {["funky" := VString "town"]}]}.

(** A text of two lines, and a decoder that finds a syntax error at
    offset 5 of it. *)
Definition two_lines : string := String "{" (String newline "  x").

Definition syntax_error_at_5 (bs : string) : M (value * option error) :=
  mret (VNil, Some (SyntaxError "invalid character" 5)).

(** * Properties *)

(** ** The monad and its primitives *)

Ltac unM := unfold mbind, M_bind, bind, mret, M_ret, ret, panic in *.

Lemma bind_Done {A B} (c : M A) (k : A -> M B) h a h' :
  c h = Done a h' -> (c ≫= k) h = k a h'.
Proof. intros E. unM. by rewrite E. Qed.

Lemma map_lookup_run p x h : map_lookup p x h = Done (map_of h p !! x) h.
Proof. done. Qed.

Lemma map_index_run p x h :
  map_index p x h = Done (default VNil (map_of h p !! x)) h.
Proof. done. Qed.

Lemma map_assign_run p x v h m :
  content h p = Some m ->
  map_assign p x v h = Done tt (set_content p (<[x := v]> m) h).
Proof. intros E. unfold map_assign. by rewrite E. Qed.

Lemma map_of_content h p m : content h p = Some m -> map_of h p = m.
Proof. unfold map_of. by intros ->. Qed.

Lemma content_set_same p m m' h :
  content h p = Some m -> content (set_content p m' h) p = Some m'.
Proof. destruct p; simpl; [intros _; apply lookup_insert_eq | done]. Qed.

Lemma set_content_twice p m m' h :
  set_content p m' (set_content p m h) = set_content p m' h.
Proof. destruct p; simpl; [apply insert_insert_eq | done]. Qed.

Lemma set_content_id p m h : content h p = Some m -> set_content p m h = h.
Proof. destruct p; simpl; [apply insert_id | done]. Qed.

Lemma type_assert_Some T q r : type_assert T q = Some r -> r = q.
Proof.
  unfold type_assert. destruct T; try (case_decide; congruence).
  destruct q; congruence.
Qed.

Lemma dyn_type_zero_concrete T : T ≠ TAny -> dyn_type (zero_value T) = Some T.
Proof. by destruct T. Qed.

Lemma assertable_slice T v :
  assertable (TSlice T) v = true <-> exists xs, v = VSlice T xs.
Proof.
  unfold assertable. rewrite bool_decide_eq_true. simpl. split.
  - intros [r Hr]. case_decide as E; [|done]. destruct v; simplify_eq/=. eauto.
  - intros [xs ->]. simpl. rewrite decide_True by done. eauto.
Qed.

(** ** The range loop of a merge *)

Lemma assign_all_run q kvs : forall h mq,
  content h q = Some mq ->
  assign_all q kvs h = Done tt (set_content q (list_to_map (rev kvs) ∪ mq) h).
Proof.
  induction kvs as [|[k x] kvs IH]; intros h mq Hq; simpl.
  - unM. rewrite (left_id_L ∅ (∪)). by rewrite set_content_id.
  - rewrite (bind_Done _ _ _ _ _ (map_assign_run q k x h mq Hq)).
    rewrite (IH _ (<[k := x]> mq)) by (by eapply content_set_same).
    rewrite set_content_twice. f_equal. f_equal.
    rewrite list_to_map_app. simpl.
    rewrite <- (assoc_L (∪)). f_equal.
    rewrite insert_empty. by rewrite <- insert_union_singleton_l.
Qed.

Lemma list_to_map_rev_to_list (m : gmap string value) :
  list_to_map (rev (map_to_list m)) = m.
Proof.
  rewrite <- (list_to_map_to_list m) at 2. symmetry.
  apply list_to_map_proper; [apply NoDup_fst_map_to_list | apply Permutation_rev].
Qed.

(** Merging [w] into a made map [q] leaves [q] holding the entries of
    [w] and, under the other keys, its own. *)
Lemma merge_into_run q w h mq :
  content h q = Some mq ->
  merge_into q w h = Done tt (set_content q (map_of h w ∪ mq) h).
Proof.
  intros Hq. unfold merge_into, map_range. unM.
  rewrite (assign_all_run _ _ _ _ Hq). by rewrite list_to_map_rev_to_list.
Qed.

(** ** Positions in the path *)

Lemma take_prefix_one (pre : list string) x rest :
  take (length pre + 1) (pre ++ x :: rest) = pre ++ [x].
Proof.
  replace (length pre + 1)%nat with (length (pre ++ [x])) by (rewrite length_app; simpl; lia).
  rewrite (cons_middle x pre rest), (assoc_L (++)). apply take_app_length.
Qed.

Lemma at_final (pre : list string) x :
  (length pre =? length (pre ++ [x]) - 1)%nat = true.
Proof. apply Nat.eqb_eq. rewrite length_app. simpl. lia. Qed.

Lemma at_inner (pre : list string) x rest :
  rest ≠ [] -> (length pre =? length (pre ++ x :: rest) - 1)%nat = false.
Proof.
  intros Hne. apply Nat.eqb_neq. rewrite length_app. simpl.
  destruct rest; [done | simpl; lia].
Qed.

Lemma length_snoc (pre : list string) x :
  (length pre + 1)%nat = length (pre ++ [x]).
Proof. rewrite length_app. simpl. lia. Qed.

(** ** Deep get *)

Lemma Get_loop_final T pre x p h :
  Get_loop T (pre ++ [x]) (length pre) [x] p h =
  Done (Get_answer T (pre ++ [x]) (map_of h p !! x)) h.
Proof.
  simpl. rewrite (bind_Done _ _ _ _ _ (map_lookup_run p x h)).
  rewrite at_final, (take_prefix_one pre x []). unfold Get_answer.
  destruct (map_of h p !! x) as [q|] eqn:E; [|done].
  destruct (type_assert T q); [done|].
  rewrite (bind_Done _ _ _ _ _ (map_index_run p x h)). by rewrite E.
Qed.

Lemma Get_loop_inner T pre x post p h :
  post ≠ [] ->
  Get_loop T (pre ++ x :: post) (length pre) (x :: post) p h =
  match map_of h p !! x with
  | Some (VMap r) => Get_loop T (pre ++ x :: post) (length pre + 1) post r h
  | _ => Done (zero_value T, Some (bad_path (pre ++ [x]))) h
  end.
Proof.
  intros Hne. simpl. rewrite (bind_Done _ _ _ _ _ (map_lookup_run p x h)).
  rewrite (at_inner pre x post Hne), take_prefix_one.
  destruct (map_of h p !! x) as [[]|]; done.
Qed.

(** Through segments that hold maps the loop only moves on. *)
Lemma Get_loop_walk T ks : forall pre post p p' h,
  walk h p ks = Some p' -> post ≠ [] ->
  Get_loop T (pre ++ ks ++ post) (length pre) (ks ++ post) p h =
  Get_loop T (pre ++ ks ++ post) (length (pre ++ ks)) post p' h.
Proof.
  induction ks as [|k ks IH]; intros pre post p p' h Hw Hne; simpl in Hw.
  - injection Hw as ->. by rewrite (right_id_L [] (++)).
  - destruct (map_of h p !! k) as [[]|] eqn:E; try done.
    change ((k :: ks) ++ post) with (k :: ks ++ post).
    rewrite Get_loop_inner by (by destruct ks).
    rewrite E, (length_snoc pre k).
    rewrite (cons_middle k pre (ks ++ post)), (assoc_L (++)).
    rewrite (IH (pre ++ [k]) post r p' h Hw Hne).
    by rewrite <- (assoc_L (++) pre [k] ks).
Qed.

Lemma Get_loop_returns T xs rest : forall n p h,
  exists r, Get_loop T xs n rest p h = Done r h.
Proof.
  induction rest as [|x rest IH]; intros n p h; simpl.
  - by eexists.
  - rewrite (bind_Done _ _ _ _ _ (map_lookup_run p x h)).
    destruct (map_of h p !! x) as [q|] eqn:E; [|by eexists].
    destruct (n =? length xs - 1)%nat.
    + destruct (type_assert T q); [by eexists|].
      rewrite (bind_Done _ _ _ _ _ (map_index_run p x h)). by eexists.
    + destruct q; try (by eexists). apply IH.
Qed.

(** What [Get] answers when the segments [pre] lead through maps to [p]
    and [x], not the last segment, does not hold a map there. *)
Lemma Get_stops_inner T h db pre x post p :
  walk h db pre = Some p -> post ≠ [] ->
  (forall r, map_of h p !! x ≠ Some (VMap r)) ->
  Get T db (pre ++ x :: post) h =
  Done (zero_value T, Some (bad_path (pre ++ [x]))) h.
Proof.
  intros Hw Hne Hx. unfold Get.
  pose proof (Get_loop_walk T pre [] (x :: post) db p h Hw) as E0.
  cbn [app length] in E0. rewrite E0 by done. rewrite Get_loop_inner by done.
  destruct (map_of h p !! x) as [[]|] eqn:E; try done. by destruct (Hx r).
Qed.

Lemma Get_at_last T h db pre x p :
  walk h db pre = Some p ->
  Get T db (pre ++ [x]) h =
  Done (Get_answer T (pre ++ [x]) (map_of h p !! x)) h.
Proof.
  intros Hw. unfold Get.
  pose proof (Get_loop_walk T pre [] [x] db p h Hw) as E0.
  cbn [app length] in E0. rewrite E0 by done. apply Get_loop_final.
Qed.

(** ** Deep set: the blocks of the loop *)

Lemma try_merge_skip flags v p x h :
  merge_applies flags v (default VNil (map_of h p !! x)) = false ->
  try_merge flags v p x h = Done false h.
Proof.
  unfold merge_applies, try_merge. destruct (has_flag flags MergeMaps); [|done].
  rewrite (bind_Done _ _ _ _ _ (map_index_run p x h)).
  destruct v; try done. by destruct (default VNil (map_of h p !! x)).
Qed.

Lemma try_merge_hit flags w p x h q mq :
  has_flag flags MergeMaps = true ->
  map_of h p !! x = Some (VMap q) -> content h q = Some mq ->
  try_merge flags (VMap w) p x h =
  Done true (set_content q (map_of h w ∪ mq) h).
Proof.
  intros Hf Hx Hq. unfold try_merge. rewrite Hf.
  rewrite (bind_Done _ _ _ _ _ (map_index_run p x h)), Hx. simpl.
  by rewrite (bind_Done _ _ _ _ _ (merge_into_run q w h mq Hq)).
Qed.

Lemma try_append_skip T flags v p x h :
  append_applies T flags v (default VNil (map_of h p !! x)) = false ->
  try_append T flags v p x h = Done false h.
Proof.
  unfold append_applies, try_append, assertable.
  destruct (has_flag flags AppendArrays); [|done].
  rewrite (bind_Done _ _ _ _ _ (map_index_run p x h)).
  generalize (default VNil (map_of h p !! x)). intros px E.
  destruct (type_assert (TSlice T) v) as [r|] eqn:Ev; [|done].
  destruct (type_assert (TSlice T) px) as [r'|] eqn:Ex.
  - exfalso. rewrite !bool_decide_eq_true_2 in E by eauto. done.
  - by destruct r.
Qed.

Lemma try_append_hit T flags ws p x h m qs :
  has_flag flags AppendArrays = true ->
  content h p = Some m -> m !! x = Some (VSlice T qs) ->
  try_append T flags (VSlice T ws) p x h =
  Done true (set_content p (<[x := VSlice T (qs ++ ws)]> m) h).
Proof.
  intros Hf Hp Hx. unfold try_append. rewrite Hf.
  rewrite (bind_Done _ _ _ _ _ (map_index_run p x h)).
  rewrite (map_of_content _ _ _ Hp), Hx. simpl.
  rewrite !decide_True by done.
  by rewrite (bind_Done _ _ _ _ _ (map_assign_run p x _ h m Hp)).
Qed.

Lemma make_map_fresh (h : heap) : h !! fresh (dom h) = None.
Proof. apply not_elem_of_dom, is_fresh. Qed.

Lemma fresh_child_run p x h m :
  content h p = Some m ->
  let l := fresh (dom h) in
  fresh_child p x h =
  Done (Some l) (set_content p (<[x := VMap (Some l)]> m) (<[l := ∅]> h)).
Proof.
  intros Hp l. unfold fresh_child, make_map. unM. fold l.
  destruct p as [lp|]; [simpl in Hp|done].
  assert (l ≠ lp) as Hne.
  { intros E. pose proof (make_map_fresh h) as F. fold l in F. congruence. }
  rewrite (map_assign_run (Some lp) x (VMap (Some l)) (<[l := ∅]> h) m)
    by (simpl; by rewrite lookup_insert_ne).
  rewrite map_index_run. unfold map_of. simpl.
  by rewrite lookup_insert_eq; simpl; rewrite lookup_insert_eq.
Qed.

(** ** The loop of [SetF], segment by segment *)

Lemma SetF_loop_inner T v flags pre x post p h :
  post ≠ [] ->
  SetF_loop T (pre ++ x :: post) v flags (length pre) (x :: post) p h =
  match map_of h p !! x with
  | Some (VMap r) =>
      SetF_loop T (pre ++ x :: post) v flags (length pre + 1) post r h
  | Some _ =>
      if has_flag flags ForceThrough then
        (r ← fresh_child p x;
         SetF_loop T (pre ++ x :: post) v flags (length pre + 1) post r) h
      else Done (Some (bad_path (pre ++ [x]))) h
  | None =>
      (r ← fresh_child p x;
       SetF_loop T (pre ++ x :: post) v flags (length pre + 1) post r) h
  end.
Proof.
  intros Hne. cbn [SetF_loop]. rewrite (at_inner pre x post Hne).
  rewrite (bind_Done _ _ _ _ _ (map_lookup_run p x h)), take_prefix_one.
  destruct (map_of h p !! x) as [[]|]; try done;
    by destruct (has_flag flags ForceThrough).
Qed.

Lemma SetF_loop_final T v flags pre x p h :
  SetF_loop T (pre ++ [x]) v flags (length pre) [x] p h =
  (merged ← try_merge flags v p x;
   if merged : bool then ret None
   else appended ← try_append T flags v p x;
        if appended : bool then ret None
        else map_assign p x v;; ret None) h.
Proof. cbn [SetF_loop]. by rewrite at_final. Qed.

(** Through segments that hold maps the loop of [SetF] only moves on. *)
Lemma SetF_loop_walk T v flags ks : forall pre post p p' h,
  walk h p ks = Some p' -> post ≠ [] ->
  SetF_loop T (pre ++ ks ++ post) v flags (length pre) (ks ++ post) p h =
  SetF_loop T (pre ++ ks ++ post) v flags (length (pre ++ ks)) post p' h.
Proof.
  induction ks as [|k ks IH]; intros pre post p p' h Hw Hne; simpl in Hw.
  - injection Hw as ->. by rewrite (right_id_L [] (++)).
  - destruct (map_of h p !! k) as [[]|] eqn:E; try done.
    change ((k :: ks) ++ post) with (k :: ks ++ post).
    rewrite SetF_loop_inner by (by destruct ks).
    rewrite E, (length_snoc pre k).
    rewrite (cons_middle k pre (ks ++ post)), (assoc_L (++)).
    rewrite (IH (pre ++ [k]) post r p' h Hw Hne).
    by rewrite <- (assoc_L (++) pre [k] ks).
Qed.

(** The loop at a segment before the last, in a made map. *)
Lemma SetF_loop_inner_made T v flags pre x post p h m :
  post ≠ [] -> content h p = Some m ->
  let l := fresh (dom h) in
  let go_on_fresh :=
    SetF_loop T (pre ++ x :: post) v flags (length pre + 1) post (Some l)
      (set_content p (<[x := VMap (Some l)]> m) (<[l := ∅]> h)) in
  SetF_loop T (pre ++ x :: post) v flags (length pre) (x :: post) p h =
  match m !! x with
  | Some (VMap r) =>
      SetF_loop T (pre ++ x :: post) v flags (length pre + 1) post r h
  | Some _ =>
      if has_flag flags ForceThrough then go_on_fresh
      else Done (Some (bad_path (pre ++ [x]))) h
  | None => go_on_fresh
  end.
Proof.
  intros Hne Hp l go_on_fresh. rewrite SetF_loop_inner by done.
  rewrite (map_of_content _ _ _ Hp).
  pose proof (fresh_child_run p x h m Hp) as Hfresh. simpl in Hfresh.
  fold l in Hfresh.
  destruct (m !! x) as [[]|]; try done;
    try (destruct (has_flag flags ForceThrough); [|done]);
    by rewrite (bind_Done _ _ _ _ _ Hfresh).
Qed.

(** The loop at the last segment: the three ways it ends. *)
Lemma SetF_loop_final_merge T flags w pre x p h q mq :
  has_flag flags MergeMaps = true ->
  map_of h p !! x = Some (VMap q) -> content h q = Some mq ->
  SetF_loop T (pre ++ [x]) (VMap w) flags (length pre) [x] p h =
  Done None (set_content q (map_of h w ∪ mq) h).
Proof.
  intros Hf Hx Hq. rewrite SetF_loop_final.
  by rewrite (bind_Done _ _ _ _ _ (try_merge_hit flags w p x h q mq Hf Hx Hq)).
Qed.

Lemma SetF_loop_final_append T flags ws pre x p h m qs :
  has_flag flags AppendArrays = true ->
  content h p = Some m -> m !! x = Some (VSlice T qs) ->
  SetF_loop T (pre ++ [x]) (VSlice T ws) flags (length pre) [x] p h =
  Done None (set_content p (<[x := VSlice T (qs ++ ws)]> m) h).
Proof.
  intros Hf Hp Hx. rewrite SetF_loop_final.
  assert (merge_applies flags (VSlice T ws)
            (default VNil (map_of h p !! x)) = false) as Hm.
  { unfold merge_applies. simpl. by rewrite andb_false_r. }
  rewrite (bind_Done _ _ _ _ _ (try_merge_skip flags _ p x h Hm)).
  by rewrite (bind_Done _ _ _ _ _ (try_append_hit T flags ws p x h m qs Hf Hp Hx)).
Qed.

Lemma SetF_loop_final_assign T flags v pre x p h m :
  content h p = Some m ->
  merge_applies flags v (default VNil (m !! x)) = false ->
  append_applies T flags v (default VNil (m !! x)) = false ->
  SetF_loop T (pre ++ [x]) v flags (length pre) [x] p h =
  Done None (set_content p (<[x := v]> m) h).
Proof.
  intros Hp Hm Ha. rewrite SetF_loop_final.
  rewrite <- (map_of_content _ _ _ Hp) in Hm, Ha.
  rewrite (bind_Done _ _ _ _ _ (try_merge_skip flags v p x h Hm)).
  rewrite (bind_Done _ _ _ _ _ (try_append_skip T flags v p x h Ha)).
  by rewrite (bind_Done _ _ _ _ _ (map_assign_run p x v h m Hp)).
Qed.

(** In a union the entries of the left map win. *)
Lemma union_new_wins (mw mq : gmap string value) k :
  (mw ∪ mq) !! k = match mw !! k with
                   | Some y => Some y
                   | None => mq !! k
                   end.
Proof. rewrite lookup_union. by destruct (mw !! k), (mq !! k). Qed.

(** [SetF] is at segment [length pre] in the map [p] when the segments
    [pre] lead through maps to [p]. *)
Lemma SetF_reaches T v flags db pre post p h :
  walk h db pre = Some p -> post ≠ [] ->
  SetF T db (pre ++ post) v flags h =
  SetF_loop T (pre ++ post) v flags (length pre) post p h.
Proof.
  intros Hw Hne. unfold SetF.
  pose proof (SetF_loop_walk T v flags pre [] post db p h Hw Hne) as E.
  cbn [app length] in E. exact E.
Qed.

(** ** Setting in a fresh tree, then getting *)

(** [Set] from an empty made map [p] on: it makes the maps of the
    remaining segments, leaves every other made map as it was, and [Get]
    then finds [v] at the end of the same segments. *)
Lemma Set_from_empty T v rest : forall pre p h,
  rest ≠ [] -> content h p = Some ∅ ->
  exists h',
    SetF_loop TAny (pre ++ rest) v MergeMaps (length pre) rest p h = Done None h'
    /\ (forall l, is_Some (h !! l) -> Some l ≠ p -> h' !! l = h !! l)
    /\ Get_loop T (pre ++ rest) (length pre) rest p h' =
       Done (Get_answer T (pre ++ rest) (Some v)) h'.
Proof.
  induction rest as [|x rest IH]; intros pre p h Hne Hp; [done|].
  destruct p as [lp|]; [simpl in Hp|done].
  destruct rest as [|y rest].
  - exists (<[lp := {[x := v]}]> h). split; [|split].
    + rewrite SetF_loop_final.
      rewrite (bind_Done _ _ _ _ _ (try_merge_skip MergeMaps v (Some lp) x h
        ltac:(unfold map_of; simpl; rewrite Hp; simpl; rewrite lookup_empty;
              unfold merge_applies; simpl; apply andb_false_r))).
      rewrite (bind_Done _ _ _ _ _ (try_append_skip TAny MergeMaps v (Some lp) x h
        ltac:(done))).
      by rewrite (bind_Done _ _ _ _ _ (map_assign_run (Some lp) x v h ∅ Hp)).
    + intros l _ Hl. apply lookup_insert_ne. congruence.
    + rewrite Get_loop_final. unfold map_of. simpl.
      by rewrite lookup_insert_eq; simpl; rewrite lookup_singleton_eq.
  - set (l := fresh (dom h)).
    assert (h !! l = None) as Hfresh by apply make_map_fresh.
    assert (l ≠ lp) as Hl by congruence.
    set (h2 := <[lp := {[x := VMap (Some l)]}]> (<[l := ∅]> h)).
    destruct (IH (pre ++ [x]) (Some l) h2) as (h' & Hset & Hframe & Hget);
      [done | simpl; unfold h2; rewrite lookup_insert_ne by done;
              apply lookup_insert_eq |].
    rewrite <- (length_snoc pre x) in Hset, Hget.
    rewrite <- (assoc_L (++)) in Hset, Hget. simpl in Hset, Hget.
    assert (h' !! lp = Some {[x := VMap (Some l)]}) as Hlp.
    { rewrite Hframe; [apply lookup_insert_eq | unfold h2; by rewrite lookup_insert_eq
                      | congruence]. }
    exists h'. split; [|split].
    + rewrite SetF_loop_inner by done. unfold map_of. simpl.
      rewrite Hp. simpl. rewrite lookup_empty.
      rewrite (bind_Done _ _ _ _ _ (fresh_child_run (Some lp) x h ∅ Hp)).
      simpl. rewrite insert_empty. exact Hset.
    + intros l0 Hl0 Hne0.
      assert (l ≠ l0) as Hl0' by (intros E; rewrite <- E, Hfresh in Hl0; by destruct Hl0).
      assert (lp ≠ l0) by congruence.
      rewrite Hframe.
      * unfold h2. by rewrite !lookup_insert_ne by done.
      * unfold h2. by rewrite !lookup_insert_ne by done.
      * congruence.
    + rewrite Get_loop_inner by done. unfold map_of at 1. simpl.
      rewrite Hlp. simpl. rewrite lookup_singleton_eq. exact Hget.
Qed.

(** C1.  Round trip: [Set] of [v] at a non-empty path [xs] of a fresh
    empty tree succeeds, and [Get[T]] at [xs] of the tree it leaves
    returns exactly [v] when the assertion of [v] to [T] holds (that is,
    when [T] is the dynamic type of [v], or [T] is [any] and [v] is not
    nil), and fails with the bad type error of the whole path
    otherwise. *)
Theorem Set_then_Get_roundtrip (T : ty) (db : mapref) (xs : list string)
    (v : value) (h : heap) :
  xs ≠ [] -> content h db = Some ∅ ->
  exists h',
    Set_ db xs v h = Done None h'
    /\ Get T db xs h' =
       Done (if assertable T v then (v, None)
             else (zero_value T,
                   Some (bad_type xs (dyn_type v) (dyn_type (zero_value T))))) h'.
Proof.
  intros Hne Hdb.
  destruct (Set_from_empty T v xs [] db h Hne Hdb) as (h' & Hset & _ & Hget).
  exists h'. split; [exact Hset|].
  unfold Get. simpl in Hget. rewrite Hget. f_equal.
  unfold Get_answer, assertable.
  destruct (type_assert T v) as [r|] eqn:E.
  - rewrite bool_decide_eq_true_2 by eauto. by rewrite (type_assert_Some _ _ _ E).
  - rewrite bool_decide_eq_false_2; [done|]. by intros [? ?].
Qed.

Lemma Set_then_Get_roundtrip_witness :
  exists h',
    Set_ (Some 1%positive) ["hello"; "corporation"] (VString "world")
         {[1%positive := ∅]} = Done None h'
    /\ Get TString (Some 1%positive) ["hello"; "corporation"] h' =
       Done (VString "world", None) h'.
Proof.
  apply (Set_then_Get_roundtrip TString (Some 1%positive)
           ["hello"; "corporation"] (VString "world") {[1%positive := ∅]});
    [done | reflexivity].
Defined.

(** ** The error contract of [Get] *)

Lemma bad_path_Is prefix :
  errors_Is (bad_path prefix) ErrBadPath = true
  /\ errors_Is (bad_path prefix) ErrBadType = false.
Proof. done. Qed.

Lemma bad_type_Is path got r :
  errors_Is (bad_type path got r) ErrBadType = true
  /\ errors_Is (bad_type path got r) ErrBadPath = false.
Proof. done. Qed.

(** The contract of [Get] on errors, with the text the errors carry:
    the bad path error of the segments up to the one that is absent or,
    before the last, does not hold a map; the bad type error of the
    whole path, the actual type and, for a concrete [T], the expected
    type; the bad path error of no segment for the empty path. *)
Lemma Get_error_contract (T : ty) (h : heap) (db : mapref) :
  (forall pre x post p,
      walk h db pre = Some p -> post ≠ [] ->
      (forall r, map_of h p !! x ≠ Some (VMap r)) ->
      Get T db (pre ++ x :: post) h =
      Done (zero_value T, Some (bad_path (pre ++ [x]))) h)
  /\ (forall pre x p q,
      walk h db pre = Some p -> map_of h p !! x = Some q ->
      type_assert T q = None ->
      Get T db (pre ++ [x]) h =
      Done (zero_value T,
            Some (bad_type (pre ++ [x]) (dyn_type q) (dyn_type (zero_value T)))) h
      /\ (T ≠ TAny -> dyn_type (zero_value T) = Some T)
      /\ (T = TAny -> q = VNil /\ dyn_type (zero_value T) = None))
  /\ Get T db [] h = Done (zero_value T, Some (bad_path [])) h.
Proof.
  split; [|split].
  - intros. by apply Get_stops_inner with p.
  - intros pre x p q Hw Hx Hq. rewrite (Get_at_last T h db pre x p Hw).
    unfold Get_answer. rewrite Hx, Hq. split; [done|]. split.
    + apply dyn_type_zero_concrete.
    + intros ->. by destruct q.
  - done.
Qed.

(** C4.  The bad type error is to report the path, the actual type and
    the expected type, as it does for [Get[int]] on a string (the test
    [valid_path_wrong_type]).  [Get[any]] on a leaf that holds JSON null
    fails with the bad type error too, but its text has [<nil>] where
    the expected type belongs: [%T] is applied to the zero value of [T],
    which is nil for an interface type. *)
Theorem Get_any_null_expected_nil :
  Get TInt (Some 1%positive) ["a"] {[1%positive := {["a" := VString "bar"]}]} =
  Done (VInt 0,
        Some (wrapError "bad type: 'a'; got 'string', expected 'int'" ErrBadType))
       {[1%positive := {["a" := VString "bar"]}]}
  /\ Get TAny (Some 1%positive) ["a"] {[1%positive := {["a" := VNil]}]} =
     Done (VNil,
           Some (wrapError "bad type: 'a'; got '<nil>', expected '<nil>'"
                   ErrBadType))
          {[1%positive := {["a" := VNil]}]}.
Proof. split; vm_compute; reflexivity. Qed.

(** C7.  [SetF] with an empty path returns no error and leaves the store
    as it was, whatever the tree, the value and the flags. *)
Theorem SetF_empty_path_noop (T : ty) (db : mapref) (v : value)
    (flags : SetFlags) (h : heap) :
  SetF T db [] v flags h = Done None h.
Proof. reflexivity. Qed.

(** C8.  [Get] returns in the store it was called in, whether it finds
    the value or fails. *)
Theorem Get_never_mutates (T : ty) (db : mapref) (xs : list string) (h : heap) :
  exists r, Get T db xs h = Done r h.
Proof. apply Get_loop_returns. Qed.

(** C9.  When the key of the last segment is absent from the map the
    earlier segments lead to, [Get] fails with the bad path error of the
    whole path, which is not a bad type error. *)
Theorem Get_final_absent_BadPath (T : ty) (h : heap) (db p : mapref)
    (pre : list string) (x : string) :
  walk h db pre = Some p -> map_of h p !! x = None ->
  exists e,
    Get T db (pre ++ [x]) h = Done (zero_value T, Some e) h
    /\ e = bad_path (pre ++ [x])
    /\ errors_Is e ErrBadPath = true /\ errors_Is e ErrBadType = false.
Proof.
  intros Hw Hx. exists (bad_path (pre ++ [x])).
  rewrite (Get_at_last T h db pre x p Hw). unfold Get_answer. rewrite Hx.
  repeat split.
Qed.

Lemma Get_final_absent_BadPath_witness :
  exists e,
    Get TString (Some 1%positive) (["foo"] ++ ["bar"])
        {[1%positive := {["foo" := VMap (Some 2%positive)]}; 2%positive := ∅]} =
    Done (VString "", Some e)
        {[1%positive := {["foo" := VMap (Some 2%positive)]}; 2%positive := ∅]}
    /\ e = bad_path (["foo"] ++ ["bar"])
    /\ errors_Is e ErrBadPath = true /\ errors_Is e ErrBadType = false.
Proof.
  apply (Get_final_absent_BadPath TString
           {[1%positive := {["foo" := VMap (Some 2%positive)]}; 2%positive := ∅]}
           (Some 1%positive) (Some 2%positive) ["foo"] "bar");
    vm_compute; reflexivity.
Defined.

(** ** The final segment of [SetF] *)

(** C2.  [SetF] is at its final segment [x] in the map [p] when the
    segments before [x] have led it there, through maps of the tree or
    through maps it has made.  There, with [p] a made map, [m] its
    content and [px] the value [p[x]]:
    (1) with [MergeMaps] set, a map [w] as new value and a made map [q]
        under [x], [SetF] returns no error and only the content of [q]
        changes, to the entries of [w] and, under the keys [w] does not
        have, those [q] had;
    (2) else, with [AppendArrays] set and both the new value and [p[x]]
        of type [[]T], [x] is set to the elements of [p[x]] followed by
        those of the new value;
    (3) else [x] is set to the new value, whatever the flags. *)
Theorem SetF_final_segment (T : ty) (v : value) (flags : SetFlags)
    (pre : list string) (x : string) (p : mapref) (h : heap)
    (m : gmap string value) :
  content h p = Some m ->
  let px := default VNil (m !! x) in
  let run := SetF_loop T (pre ++ [x]) v flags (length pre) [x] p h in
  (forall db, walk h db pre = Some p -> SetF T db (pre ++ [x]) v flags h = run)
  /\ (forall w q mq,
      has_flag flags MergeMaps = true -> v = VMap w -> px = VMap q ->
      content h q = Some mq ->
      run = Done None (set_content q (map_of h w ∪ mq) h)
      /\ forall k, (map_of h w ∪ mq) !! k =
                   match map_of h w !! k with
                   | Some y => Some y
                   | None => mq !! k
                   end)
  /\ (forall ws qs,
      merge_applies flags v px = false ->
      has_flag flags AppendArrays = true ->
      v = VSlice T ws -> px = VSlice T qs ->
      run = Done None (set_content p (<[x := VSlice T (qs ++ ws)]> m) h))
  /\ (merge_applies flags v px = false ->
      append_applies T flags v px = false ->
      run = Done None (set_content p (<[x := v]> m) h)).
Proof.
  intros Hp px run. subst run px.
  split; [intros db Hw; by apply SetF_reaches|].
  split; [|split].
  - intros w q mq Hf -> Hq Hmq. split; [|intros k; apply union_new_wins].
    apply SetF_loop_final_merge; [done| |done].
    rewrite (map_of_content _ _ _ Hp).
    destruct (m !! x); simpl in Hq; congruence.
  - intros ws qs _ Hf -> Hq. apply SetF_loop_final_append; [done|done|].
    destruct (m !! x); simpl in Hq; congruence.
  - intros Hm Ha. by apply SetF_loop_final_assign.
Qed.

(** The test [AppendArrays] of the repository, through the theorem. *)
Lemma SetF_final_segment_witness :
  SetF TString (Some 1%positive) ["foo"] (VSlice TString [VString "world"])
       AppendArrays {[1%positive := {["foo" := VSlice TString [VString "hello"]]}]}
  = Done None
      {[1%positive := {["foo" := VSlice TString [VString "hello"; VString "world"]]}]}.
Proof.
  destruct (SetF_final_segment TString (VSlice TString [VString "world"])
              AppendArrays [] "foo" (Some 1%positive)
              {[1%positive := {["foo" := VSlice TString [VString "hello"]]}]}
              {["foo" := VSlice TString [VString "hello"]]})
    as (_ & _ & Happ & _); [vm_compute; reflexivity|].
  etransitivity;
    [apply (Happ [VString "world"] [VString "hello"]); vm_compute; reflexivity
    | vm_compute; reflexivity].
Defined.

(** ** The segments before the last *)

(** C3.  [SetF] is at a segment [x] before the last in the map [p] when
    the segments before [x] have led it there.  There, with [p] a made
    map and [m] its content: when [x] is absent, [SetF] makes
    a map at a fresh location [l], puts it under [x] and goes on in it;
    when [x] holds a map it goes on in that map, the store untouched;
    when [x] holds something else it does as for an absent key if
    [ForceThrough] is set (the value [x] held is gone), and otherwise
    returns the bad path error of the segments up to [x], the store
    untouched. *)
Theorem SetF_intermediate_segment (T : ty) (v : value) (flags : SetFlags)
    (pre : list string) (x : string) (post : list string) (p : mapref)
    (h : heap) (m : gmap string value) :
  post ≠ [] -> content h p = Some m ->
  let xs := pre ++ x :: post in
  let run := SetF_loop T xs v flags (length pre) (x :: post) p h in
  let l := fresh (dom h) in
  let h' := set_content p (<[x := VMap (Some l)]> m) (<[l := ∅]> h) in
  let go_on_fresh := SetF_loop T xs v flags (length pre + 1) post (Some l) h' in
  (forall db, walk h db pre = Some p -> SetF T db xs v flags h = run)
  /\ (h !! l = None /\ content h' (Some l) = Some ∅
      /\ content h' p = Some (<[x := VMap (Some l)]> m))
  /\ (m !! x = None -> run = go_on_fresh)
  /\ (forall r, m !! x = Some (VMap r) ->
        run = SetF_loop T xs v flags (length pre + 1) post r h)
  /\ (forall q, m !! x = Some q -> is_map q = false ->
        (has_flag flags ForceThrough = true -> run = go_on_fresh)
        /\ (has_flag flags ForceThrough = false ->
            run = Done (Some (bad_path (pre ++ [x]))) h)).
Proof.
  intros Hne Hp xs run l h' go_on_fresh. subst run xs.
  split; [intros db Hw; by apply SetF_reaches|].
  pose proof (SetF_loop_inner_made T v flags pre x post p h m Hne Hp) as E.
  cbv zeta in E. fold l in E. fold h' in E. fold go_on_fresh in E. rewrite E.
  assert (h !! l = None) as Hl by apply make_map_fresh.
  split; [split; [done|split]|split; [|split]].
  - unfold h'. destruct p as [lp|]; [simpl in *|done].
    rewrite lookup_insert_ne by congruence. apply lookup_insert_eq.
  - unfold h'. destruct p as [lp|]; [simpl in *|done]. apply lookup_insert_eq.
  - by intros ->.
  - by intros r ->.
  - intros q -> Hq. split; intros ->; by destruct q.
Qed.

(** The test [deep_path] of the repository starts with an absent key. *)
Lemma SetF_intermediate_segment_witness :
  Set_ (Some 1%positive) ["hello"; "corporation"] (VString "world")
       {[1%positive := ∅]}
  = Done None {[1%positive := {["hello" := VMap (Some 2%positive)]};
                2%positive := {["corporation" := VString "world"]}]}.
Proof.
  destruct (SetF_intermediate_segment TAny (VString "world") MergeMaps
              [] "hello" ["corporation"] (Some 1%positive)
              {[1%positive := ∅]} ∅)
    as (_ & _ & Habsent & _); [done | vm_compute; reflexivity |].
  etransitivity; [apply Habsent; vm_compute; reflexivity
                 | vm_compute; reflexivity].
Defined.

(** ** [ForceThrough] *)

Lemma content_mono_fresh_child h p x m l r :
  content h p = Some m -> h !! l = None ->
  is_Some (content h r) ->
  is_Some (content (set_content p (<[x := VMap (Some l)]> m) (<[l := ∅]> h)) r).
Proof.
  intros Hp Hl Hr. destruct p as [lp|]; [simpl in *|done].
  destruct r as [lr|]; [simpl in *|done].
  destruct (decide (lp = lr)) as [->|]; [by rewrite lookup_insert_eq|].
  rewrite lookup_insert_ne by done.
  destruct (decide (l = lr)) as [->|]; [by rewrite lookup_insert_eq|].
  by rewrite lookup_insert_ne.
Qed.

Lemma closed_fresh_child h p x m l :
  closed h -> content h p = Some m -> h !! l = None ->
  closed (set_content p (<[x := VMap (Some l)]> m) (<[l := ∅]> h)).
Proof.
  intros Hc Hp Hl l0 m0 k r H0 Hk.
  destruct p as [lp|]; [simpl in *|done].
  assert (l ≠ lp) by congruence.
  destruct (decide (lp = l0)) as [->|].
  - rewrite lookup_insert_eq in H0. injection H0 as <-.
    destruct (decide (x = k)) as [->|].
    + rewrite lookup_insert_eq in Hk. injection Hk as <-. simpl.
      rewrite lookup_insert_ne by done. by rewrite lookup_insert_eq.
    + rewrite lookup_insert_ne in Hk by done.
      apply (content_mono_fresh_child h (Some l0) x m l r Hp Hl).
      by apply (Hc l0 m k r).
  - rewrite lookup_insert_ne in H0 by done.
    destruct (decide (l = l0)) as [->|].
    + rewrite lookup_insert_eq in H0. injection H0 as <-.
      by rewrite lookup_empty in Hk.
    + rewrite lookup_insert_ne in H0 by done.
      apply (content_mono_fresh_child h (Some lp) x m l r Hp Hl).
      by apply (Hc l0 m0 k r).
Qed.

Lemma SetF_loop_ForceThrough T v flags rest : forall pre p h,
  has_flag flags ForceThrough = true ->
  is_Some (content h p) -> closed h ->
  exists h', SetF_loop T (pre ++ rest) v flags (length pre) rest p h = Done None h'.
Proof.
  induction rest as [|x rest IH]; intros pre p h Hf [m Hp] Hc.
  { by eexists. }
  assert (forall r, m !! x = Some (VMap r) -> is_Some (content h r)) as Hmade.
  { intros r Hx. destruct p as [lp|]; [simpl in Hp|done]. by apply (Hc lp m x r). }
  destruct rest as [|y rest].
  - destruct (merge_applies flags v (default VNil (m !! x))) eqn:Em.
    + unfold merge_applies in Em.
      apply andb_prop in Em as [Em Hq]. apply andb_prop in Em as [Em Hv].
      destruct v as [| | | | |w|]; try done.
      destruct (m !! x) as [[| | | | |q|]|] eqn:Ex; try done.
      destruct (Hmade q eq_refl) as [mq Hmq].
      rewrite (SetF_loop_final_merge T flags w pre x p h q mq Em); [by eexists| |done].
      by rewrite (map_of_content _ _ _ Hp).
    + destruct (append_applies T flags v (default VNil (m !! x))) eqn:Ea.
      * unfold append_applies in Ea.
        apply andb_prop in Ea as [Ea Hq]. apply andb_prop in Ea as [Ea Hv].
        apply assertable_slice in Hv as [ws ->].
        apply assertable_slice in Hq as [qs Hq].
        rewrite (SetF_loop_final_append T flags ws pre x p h m qs Ea Hp);
          [by eexists|].
        destruct (m !! x); simpl in Hq; congruence.
      * rewrite (SetF_loop_final_assign T flags v pre x p h m Hp Em Ea).
        by eexists.
  - pose proof (SetF_loop_inner_made T v flags pre x (y :: rest) p h m
                  ltac:(done) Hp) as E.
    cbv zeta in E. rewrite E. clear E.
    assert (h !! fresh (dom h) = None) as Hl by apply make_map_fresh.
    assert (exists h', SetF_loop T (pre ++ x :: y :: rest) v flags
              (length pre + 1) (y :: rest) (Some (fresh (dom h)))
              (set_content p (<[x := VMap (Some (fresh (dom h)))]> m)
                 (<[fresh (dom h) := ∅]> h)) = Done None h') as Hfresh.
    { rewrite (length_snoc pre x), (cons_middle x pre), (assoc_L (++)).
      apply IH; [done | | by apply closed_fresh_child].
      destruct p as [lp|]; [simpl in *|done].
      rewrite lookup_insert_ne by congruence. by rewrite lookup_insert_eq. }
    destruct (m !! x) as [q|] eqn:Ex; [|done].
    destruct q; try (by rewrite Hf).
    rewrite (length_snoc pre x), (cons_middle x pre), (assoc_L (++)).
    apply IH; [done | by apply Hmade | done].
Qed.

(** C10.  With [ForceThrough] set, [SetF] returns no error for
    every path, value and other flags on a tree whose root is a made map
    and whose maps hold references to made maps only. *)
Theorem SetF_ForceThrough_succeeds (T : ty) (db : mapref) (xs : list string)
    (v : value) (flags : SetFlags) (h : heap) :
  has_flag flags ForceThrough = true ->
  is_Some (content h db) -> closed h ->
  exists h', SetF T db xs v flags h = Done None h'.
Proof. intros. by apply (SetF_loop_ForceThrough T v flags xs []). Qed.

Lemma SetF_ForceThrough_succeeds_witness :
  exists h',
    SetF TAny (Some 1%positive) ["foo"; "bar"] (VInt 1) ForceThrough
         {[1%positive := {["foo" := VString "baz"]}]} = Done None h'.
Proof.
  apply (SetF_ForceThrough_succeeds TAny (Some 1%positive) ["foo"; "bar"]
           (VInt 1) ForceThrough {[1%positive := {["foo" := VString "baz"]}]}).
  - reflexivity.
  - eexists. vm_compute. reflexivity.
  - intros l m k r Hl Hk.
    apply lookup_singleton_Some in Hl as [_ <-].
    apply lookup_singleton_Some in Hk as [_ Hk]. discriminate Hk.
Defined.

(** C10, on a nil map.  A nil map kept in the tree, here put there by
    [Set] itself, is gone into like any map, and the assignment in it
    panics: [SetF] with [ForceThrough] set does not return there. *)
Lemma SetF_ForceThrough_nil_map_panics :
  Set_ (Some 1%positive) ["a"] (VMap None) {[1%positive := ∅]}
  = Done None {[1%positive := {["a" := VMap None]}]}
  /\ has_flag ForceThrough ForceThrough = true
  /\ SetF TAny (Some 1%positive) ["a"; "b"] (VInt 1) ForceThrough
          {[1%positive := {["a" := VMap None]}]}
     = Panic "assignment to entry in nil map"
  /\ ~ (forall T db xs v flags (h : heap),
          has_flag flags ForceThrough = true ->
          exists h', SetF T db xs v flags h = Done None h').
Proof.
  split; [vm_compute; reflexivity|]. split; [reflexivity|].
  assert (SetF TAny (Some 1%positive) ["a"; "b"] (VInt 1) ForceThrough
            {[1%positive := {["a" := VMap None]}]}
          = Panic "assignment to entry in nil map") as E
    by (vm_compute; reflexivity).
  split; [exact E|]. intros H.
  destruct (H TAny (Some 1%positive) ["a"; "b"] (VInt 1) ForceThrough
              {[1%positive := {["a" := VMap None]}]} eq_refl) as [h' Hh'].
  rewrite E in Hh'. discriminate Hh'.
Qed.

(** ** The root file *)

(** C5.  When [filepath.Rel] can relate the file to the base
    directory and the file without its extension is the base directory,
    [Store] of a value that is not a map fails with the root error and
    leaves the store as it was, and [Store] of a map [z] in a made tree
    puts the entries of [z] in the root of the tree, over the entries
    the root had under the same keys. *)
Theorem Store_root_file (ind fn : string) (y : value) (db : mapref)
    (h : heap) (rel : string) :
  filepath_Rel ind fn = (rel, None) -> isRoot ind fn = true ->
  (is_map y = false -> Store ind fn y db h = Done (Some root_not_a_hash) h)
  /\ (forall z m, y = VMap z -> content h db = Some m ->
        Store ind fn y db h = Done None (set_content db (map_of h z ∪ m) h)
        /\ forall k, (map_of h z ∪ m) !! k =
                     match map_of h z !! k with
                     | Some v => Some v
                     | None => m !! k
                     end).
Proof.
  intros Hrel Hroot. unfold Store. rewrite Hrel, Hroot. split.
  - by destruct y.
  - intros z m -> Hdb. split.
    + by rewrite (bind_Done _ _ _ _ _ (merge_into_run db z h m Hdb)).
    + intros k. apply union_new_wins.
Qed.

(** The two tests of the repository on the root file. *)
Lemma Store_root_file_witness :
  Store "path/to/db/" "path/to/db.json" (VString "bar") (Some 1%positive)
        {[1%positive := ∅]}
  = Done (Some root_not_a_hash) {[1%positive := ∅]}
  /\ Store "path/to/db/" "path/to/db.json" (VMap (Some 2%positive))
        (Some 1%positive)
        {[1%positive := ∅; 2%positive := {["foo" := VString "bar"]}]}
     = Done None {[1%positive := {["foo" := VString "bar"]};
                   2%positive := {["foo" := VString "bar"]}]}.
Proof.
  split.
  - apply (Store_root_file "path/to/db/" "path/to/db.json" (VString "bar")
             (Some 1%positive) {[1%positive := ∅]} "../db.json");
      vm_compute; reflexivity.
  - etransitivity.
    + apply (Store_root_file "path/to/db/" "path/to/db.json"
               (VMap (Some 2%positive)) (Some 1%positive)
               {[1%positive := ∅; 2%positive := {["foo" := VString "bar"]}]}
               "../db.json" ltac:(vm_compute; reflexivity)
               ltac:(vm_compute; reflexivity));
        [reflexivity | vm_compute; reflexivity].
    + vm_compute. reflexivity.
Defined.

(** C5, on the parent directory as base.  [..json] without its extension is
    [..], the base itself, but [filepath.Rel] cannot relate the file to
    the base, and [Store] returns its error before it looks at the root
    case: not the root error for a string, no merge for a map. *)
Lemma Store_root_file_Rel_fails :
  isRoot ".." "...json" = true
  /\ Store ".." "...json" (VString "bar") (Some 1%positive) {[1%positive := ∅]}
     = Done (Some (Rel_error ".." "...json")) {[1%positive := ∅]}
  /\ Rel_error ".." "...json" ≠ root_not_a_hash
  /\ Store ".." "...json" (VMap (Some 2%positive)) (Some 1%positive)
        {[1%positive := ∅; 2%positive := {["foo" := VString "bar"]}]}
     = Done (Some (Rel_error ".." "...json"))
        {[1%positive := ∅; 2%positive := {["foo" := VString "bar"]}]}.
Proof. repeat split; try (vm_compute; reflexivity). discriminate. Qed.

(** ** Loading a file and a directory *)

Section LoaderProperties.

Variable os_ReadFile : string -> string * option error.
Variable json_Unmarshal : string -> M (value * option error).
Variable Walk_visits : string -> list (string * bool * option error).

Lemma fatal_false err :
  fatal err = false <->
  err = None \/ exists e, err = Some e /\ Is_ErrNotExist e = true.
Proof.
  destruct err as [e|]; simpl.
  - rewrite negb_false_iff. split; [eauto|]. by intros [|(? & [= <-] & ?)].
  - split; [eauto | done].
Qed.

(** An error of the file that is not the want of the file is returned
    as it is, and the directory is not read. *)
Lemma DoReadAndStore_file_fails (path dn fn : string) (db : mapref)
    (h h0 : heap) (err0 : option error) :
  GetPaths path = (dn, fn) ->
  ReadAndStoreFile os_ReadFile json_Unmarshal dn fn db h = Done err0 h0 ->
  fatal err0 = true ->
  DoReadAndStore os_ReadFile json_Unmarshal Walk_visits path db h
    = Done err0 h0.
Proof.
  intros Hpaths Hfile Hf0. unfold DoReadAndStore. rewrite Hpaths.
  by rewrite (bind_Done _ _ _ _ _ Hfile), Hf0.
Qed.

(** So is such an error of the directory, whatever the file did. *)
Lemma DoReadAndStore_directory_fails (path dn fn : string) (db : mapref)
    (h h0 h1 : heap) (err0 err1 : option error) :
  GetPaths path = (dn, fn) ->
  ReadAndStoreFile os_ReadFile json_Unmarshal dn fn db h = Done err0 h0 ->
  fatal err0 = false ->
  ReadAndStoreDir os_ReadFile json_Unmarshal Walk_visits dn db h0
    = Done err1 h1 ->
  fatal err1 = true ->
  DoReadAndStore os_ReadFile json_Unmarshal Walk_visits path db h
    = Done err1 h1.
Proof.
  intros Hpaths Hfile Hf0 Hdir Hf1. unfold DoReadAndStore. rewrite Hpaths.
  rewrite (bind_Done _ _ _ _ _ Hfile), Hf0.
  by rewrite (bind_Done _ _ _ _ _ Hdir), Hf1.
Qed.

End LoaderProperties.

(** Only the file, only the directory, neither. *)
Example DoReadAndStore_only_file :
  DoReadAndStore demo_ReadFile demo_Unmarshal (fun ind => [(ind, false, Some (no_such_file "lstat" ind))])
    "root" (Some 1%positive) {[1%positive := ∅]}
  = Done None {[1%positive := {["foo" := VString "bar"]};
                2%positive := {["foo" := VString "bar"]}]}.
Proof. vm_compute. reflexivity. Qed.

Example DoReadAndStore_only_directory :
  DoReadAndStore (fun fn => if String.eqb fn "root/foo.json" then (doc_string, None)
                            else ("", Some (no_such_file "open" fn)))
    demo_Unmarshal demo_Walk "root" (Some 1%positive) {[1%positive := ∅]}
  = Done None {[1%positive := {["foo" := VString "baz"]}]}.
Proof. vm_compute. reflexivity. Qed.

Example DoReadAndStore_neither :
  DoReadAndStore demo_ReadFile demo_Unmarshal demo_Walk "nowhere"
    (Some 1%positive) {[1%positive := ∅]}
  = Done (Some (joinError
                  (wrapError "reading nowhere.json: open nowhere.json: no such file or directory"
                     (no_such_file "open" "nowhere.json"))
                  (no_such_file "lstat" "nowhere")))
      {[1%positive := ∅]}.
Proof. vm_compute. reflexivity. Qed.

(** ** [filepath.Rel]

    Where the loop of [filepath.Rel] stops: on the first element that
    differs, on the next element of the base when the target has run
    out, on the empty element when the base has run out.  The base it
    cannot go up from, [..], gives the error. *)
Example filepath_Rel_cases :
  filepath_Rel "a/b" "a/b/c/d" = ("c/d", None)
  /\ filepath_Rel "a/b/c/d" "a/b" = ("../..", None)
  /\ filepath_Rel "a/b/c" "a/c/d" = ("../../c/d", None)
  /\ filepath_Rel "/a/b" "/a/b/../c" = ("../c", None)
  /\ filepath_Rel "." ".." = ("..", None)
  /\ filepath_Rel ".." "." = ("", Some (Rel_error ".." "."))
  /\ filepath_Rel ".." "a" = ("", Some (Rel_error ".." "a"))
  /\ filepath_Rel "../.." ".." = ("", Some (Rel_error "../.." ".."))
  /\ filepath_Rel "a" "/a" = ("", Some (Rel_error "a" "/a")).
Proof. repeat split; vm_compute; reflexivity. Qed.

(** ** The tests of the repository *)

Example Test_GetPaths :
  GetPaths "" = ("", ".json") /\ GetPaths "." = (".", "..json")
  /\ GetPaths "foo" = ("foo", "foo.json")
  /\ GetPaths "foo.json" = ("foo", "foo.json")
  /\ GetPaths "bar/foo.json" = ("bar/foo", "bar/foo.json").
Proof. repeat split. Qed.

Example TestStore_file_in_current_directory :
  Store "." "foo.json" (VString "bar") (Some 1%positive) {[1%positive := ∅]}
  = Done None {[1%positive := {["foo" := VString "bar"]}]}.
Proof. vm_compute. reflexivity. Qed.

Example TestStore_file_at_the_base_of_input_directory :
  Store "path/to/" "path/to/foo.json" (VString "bar") (Some 1%positive)
        {[1%positive := ∅]}
  = Done None {[1%positive := {["foo" := VString "bar"]}]}
  /\ Store "path/to" "path/to/foo.json" (VString "bar") (Some 1%positive)
        {[1%positive := ∅]}
     = Done None {[1%positive := {["foo" := VString "bar"]}]}.
Proof. split; vm_compute; reflexivity. Qed.

Example TestStore_one_layer_non_empty_DB_override :
  Store "path" "path/to/foo.json" (VString "bar") (Some 1%positive)
        {[1%positive := {["to" := VMap (Some 2%positive)]};
          2%positive := {["foo" := VString "baz"]}]}
  = Done None {[1%positive := {["to" := VMap (Some 2%positive)]};
                2%positive := {["foo" := VString "bar"]}]}.
Proof. vm_compute. reflexivity. Qed.

Example TestStore_map_merge :
  Store "path" "path/to.json" (VMap (Some 3%positive)) (Some 1%positive)
        {[1%positive := {["to" := VMap (Some 2%positive)]};
          2%positive := {["foo" := VString "bar"]};
          3%positive := {["bar" := VString "baz"]}]}
  = Done None {[1%positive := {["to" := VMap (Some 2%positive)]};
                2%positive := {["foo" := VString "bar"; "bar" := VString "baz"]};
                3%positive := {["bar" := VString "baz"]}]}.
Proof. vm_compute. reflexivity. Qed.

Example TestGet_empty_path :
  Get TAny (Some 1%positive) [] {[1%positive := {["foo" := VString "bar"]}]}
  = Done (VNil, Some (wrapError "bad path: " ErrBadPath))
      {[1%positive := {["foo" := VString "bar"]}]}.
Proof. vm_compute. reflexivity. Qed.

Example TestGet_valid_path_wrong_type :
  Get TInt (Some 1%positive) ["foo"] {[1%positive := {["foo" := VString "bar"]}]}
  = Done (VInt 0,
          Some (wrapError "bad type: 'foo'; got 'string', expected 'int'"
                  ErrBadType))
      {[1%positive := {["foo" := VString "bar"]}]}.
Proof. vm_compute. reflexivity. Qed.

Example TestGet_valid_nested_path :
  Get TString (Some 1%positive) ["foo"; "bar"]
      {[1%positive := {["foo" := VMap (Some 2%positive)]};
        2%positive := {["bar" := VString "baz"]}]}
  = Done (VString "baz", None)
      {[1%positive := {["foo" := VMap (Some 2%positive)]};
        2%positive := {["bar" := VString "baz"]}]}.
Proof. vm_compute. reflexivity. Qed.

Example TestGet_cannot_go_this_deep :
  Get TString (Some 1%positive) ["foo"; "bar"]
      {[1%positive := {["foo" := VString "bar"]}]}
  = Done (VString "", Some (wrapError "bad path: foo" ErrBadPath))
      {[1%positive := {["foo" := VString "bar"]}]}
  /\ Get TString (Some 1%positive) ["foo"; "bar"] {[1%positive := ∅]}
     = Done (VString "", Some (wrapError "bad path: foo" ErrBadPath))
         {[1%positive := ∅]}.
Proof. split; vm_compute; reflexivity. Qed.

Example TestSet_single_depth_path :
  Set_ (Some 1%positive) ["hello"] (VString "world") {[1%positive := ∅]}
  = Done None {[1%positive := {["hello" := VString "world"]}]}.
Proof. vm_compute. reflexivity. Qed.

(** A syntax error at offset 5 of a text whose second line starts at
    offset 2 is on line 2, column 4. *)
Example ReadFile_line_and_column :
  ReadFile (fun _ => (String "{" (String newline "  x"), None))
           (fun _ => mret (VNil, Some (SyntaxError "invalid character" 5)))
           "db.json" ∅
  = Done (VNil,
          Some (wrapError "unmarshaling db.json:2:4 invalid character"
                  (SyntaxError "invalid character" 5))) ∅.
Proof. vm_compute. reflexivity. Qed.

(** * More of the package *)

(** ** Strings *)

Lemma chars_app (a b : string) :
  list_ascii_of_string (a ++ b) = list_ascii_of_string a ++ list_ascii_of_string b.
Proof. induction a as [|c a IH]; simpl; [done | by rewrite IH]. Qed.

Lemma string_of_chars_app (l1 l2 : list ascii) :
  string_of_list_ascii (l1 ++ l2)
  = (string_of_list_ascii l1 ++ string_of_list_ascii l2)%string.
Proof. induction l1 as [|c l1 IH]; simpl; [done | by rewrite IH]. Qed.

Lemma string_rev_app (a b : string) :
  string_rev (a ++ b) = (string_rev b ++ string_rev a)%string.
Proof.
  unfold string_rev. rewrite chars_app, rev_app_distr, string_of_chars_app.
  reflexivity.
Qed.

Lemma string_rev_involutive (s : string) : string_rev (string_rev s) = s.
Proof.
  unfold string_rev.
  rewrite list_ascii_of_string_of_list_ascii, rev_involutive.
  apply string_of_list_ascii_of_string.
Qed.

Lemma prefix_app (a b : string) : String.prefix a (a ++ b) = true.
Proof.
  induction a as [|c a IH]; simpl; [by destruct b|].
  destruct (ascii_dec c c); [done | congruence].
Qed.

Lemma prefix_split (a s : string) :
  String.prefix a s = true -> exists b, s = (a ++ b)%string.
Proof.
  revert s. induction a as [|c a IH]; intros s; [by exists s|].
  destruct s as [|d s]; simpl; [done|].
  destruct (ascii_dec c d) as [->|]; [|done].
  intros H. destruct (IH s H) as [b ->]. by exists b.
Qed.

Lemma string_length_app (a b : string) :
  String.length (a ++ b) = (String.length a + String.length b)%nat.
Proof. induction a as [|c a IH]; simpl; [done | by rewrite IH]. Qed.

Lemma substring_app_l (a b : string) :
  String.substring 0 (String.length a) (a ++ b) = a.
Proof.
  induction a as [|c a IH]; simpl; [by destruct b | by rewrite IH].
Qed.

Lemma HasSuffix_app (a suffix : string) :
  strings_HasSuffix (a ++ suffix) suffix = true.
Proof. unfold strings_HasSuffix. rewrite string_rev_app. apply prefix_app. Qed.

Lemma HasSuffix_split (s suffix : string) :
  strings_HasSuffix s suffix = true -> exists a, s = (a ++ suffix)%string.
Proof.
  unfold strings_HasSuffix. intros H.
  destruct (prefix_split _ _ H) as [b Hb]. exists (string_rev b).
  rewrite <- (string_rev_involutive s), Hb, string_rev_app.
  by rewrite string_rev_involutive.
Qed.

Lemma TrimSuffix_app (a suffix : string) :
  strings_TrimSuffix (a ++ suffix) suffix = a.
Proof.
  unfold strings_TrimSuffix. rewrite HasSuffix_app, string_length_app.
  replace (String.length a + String.length suffix - String.length suffix)%nat
    with (String.length a) by lia.
  apply substring_app_l.
Qed.

(** [strings.TrimSuffix] takes off exactly the suffix, when it is one. *)
Lemma TrimSuffix_HasSuffix (s suffix : string) :
  strings_HasSuffix s suffix = true ->
  (strings_TrimSuffix s suffix ++ suffix)%string = s.
Proof.
  intros H. destruct (HasSuffix_split _ _ H) as [a ->].
  by rewrite TrimSuffix_app.
Qed.

(** ** The path helpers *)

Lemma strings_Split_not_nil (s : string) (sep : ascii) : strings_Split s sep ≠ [].
Proof.
  destruct s as [|a s]; simpl; [done|].
  destruct (Ascii.eqb a sep); [done|]. by destruct (strings_Split s sep).
Qed.

Lemma strings_Join_cons (x : string) (rest : list string) (sep : string) :
  rest ≠ [] ->
  strings_Join (x :: rest) sep = (x ++ sep ++ strings_Join rest sep)%string.
Proof. by destruct rest. Qed.

Lemma strings_Join_Split (s : string) (sep : ascii) :
  strings_Join (strings_Split s sep) (String sep "") = s.
Proof.
  induction s as [|a s IH]; simpl; [done|].
  destruct (Ascii.eqb a sep) eqn:E.
  - apply Ascii.eqb_eq in E as ->.
    rewrite strings_Join_cons by apply strings_Split_not_nil.
    simpl. by rewrite IH.
  - pose proof (strings_Split_not_nil s sep) as Hne.
    destruct (strings_Split s sep) as [|w ws]; [done|].
    destruct ws as [|w' ws].
    + simpl in *. by rewrite IH.
    + rewrite strings_Join_cons by done.
      rewrite strings_Join_cons in IH by done.
      transitivity (String a (w ++ String sep "" ++
                      strings_Join (w' :: ws) (String sep "")));
        [reflexivity | by rewrite IH].
Qed.

Lemma strings_Split_no_sep (s : string) (sep : ascii) :
  Forall (fun seg => ~ In sep (list_ascii_of_string seg)) (strings_Split s sep).
Proof.
  induction s as [|a s IH]; simpl.
  - constructor; [by intros [] | constructor].
  - destruct (Ascii.eqb a sep) eqn:E.
    + constructor; [by intros [] | exact IH].
    + apply Ascii.eqb_neq in E.
      destruct (strings_Split s sep) as [|w ws].
      * constructor; [|constructor]. simpl. by intros [|[]].
      * inversion IH as [|? ? Hw Hws]; subst. constructor; [|done].
        simpl. intros [|]; [congruence | done].
Qed.

(** X1.  [splitPath] loses nothing of the path: it gives at least one
    segment, no segment holds the separator, and the segments joined by
    the separator are the path. *)
Theorem splitPath_Join (path : string) :
  splitPath path ≠ []
  /\ Forall (fun seg => ~ In PathSeparator (list_ascii_of_string seg))
            (splitPath path)
  /\ strings_Join (splitPath path) "/" = path.
Proof.
  split; [apply strings_Split_not_nil|].
  split; [apply strings_Split_no_sep | apply strings_Join_Split].
Qed.

(** What [filepath.Ext] returns is the end of the path it is given,
    [back] being the bytes not looked at yet, last first. *)
Lemma Extscan_suffix (back seen : list ascii) :
  Extscan back seen = ""
  \/ exists k, Extscan back seen
               = string_of_list_ascii (rev (take k back) ++ seen).
Proof.
  revert seen. induction back as [|c back IH]; intros seen; simpl; [by left|].
  destruct (Ascii.eqb c PathSeparator); [by left|].
  destruct (Ascii.eqb c "."%char).
  - right. by exists 1%nat.
  - destruct (IH (c :: seen)) as [->|[k ->]]; [by left|].
    right. exists (S k). simpl. by rewrite <- (assoc_L (++)).
Qed.

Lemma Ext_is_suffix (path : string) :
  strings_HasSuffix path (filepath_Ext path) = true.
Proof.
  unfold filepath_Ext.
  destruct (Extscan_suffix (rev (list_ascii_of_string path)) []) as [->|[k ->]].
  - unfold strings_HasSuffix. by destruct (string_rev path).
  - rewrite (right_id_L [] (++)).
    rewrite <- (string_of_list_ascii_of_string path) at 1.
    rewrite <- (rev_involutive (list_ascii_of_string path)) at 1.
    rewrite <- (take_drop k (rev (list_ascii_of_string path))) at 1.
    rewrite rev_app_distr, string_of_chars_app. apply HasSuffix_app.
Qed.

(** X2.  [TrimExt] takes off what [filepath.Ext] finds and nothing
    else: the trimmed name followed by the extension is the name. *)
Theorem TrimExt_Ext (fn : string) :
  (TrimExt fn ++ filepath_Ext fn)%string = fn.
Proof. apply TrimSuffix_HasSuffix, Ext_is_suffix. Qed.

Lemma Ext_of_json (dn : string) : filepath_Ext (dn ++ Ext) = Ext.
Proof. unfold filepath_Ext. by rewrite chars_app, rev_app_distr. Qed.

Lemma TrimRight_json (a : string) :
  strings_TrimRight (a ++ Ext) "/"%char = (a ++ Ext)%string.
Proof.
  unfold strings_TrimRight. rewrite chars_app, rev_app_distr. simpl.
  rewrite <- !(assoc_L (++)). simpl.
  rewrite rev_involutive, string_of_chars_app.
  by rewrite string_of_list_ascii_of_string.
Qed.

Lemma GetPaths_json (a : string) : GetPaths (a ++ Ext) = (a, (a ++ Ext)%string).
Proof.
  unfold GetPaths. by rewrite HasSuffix_app, TrimRight_json, TrimSuffix_app.
Qed.

Lemma GetPaths_pair (path : string) :
  exists dn, GetPaths path = (dn, (dn ++ Ext)%string).
Proof.
  destruct (strings_HasSuffix path Ext) eqn:E.
  - destruct (HasSuffix_split _ _ E) as [a ->]. exists a. apply GetPaths_json.
  - exists path. unfold GetPaths. by rewrite E.
Qed.

Lemma TrimExt_json (dn : string) : TrimExt (dn ++ Ext) = dn.
Proof. unfold TrimExt. by rewrite Ext_of_json, TrimSuffix_app. Qed.

(** The file candidate of [GetPaths] is the root file of the directory
    candidate. *)
Lemma isRoot_candidate (dn : string) : isRoot dn (dn ++ Ext) = true.
Proof. unfold isRoot. rewrite TrimExt_json. apply String.eqb_refl. Qed.

(** X3.  The two candidates of [GetPaths] differ by the extension: the
    file is the directory followed by [.json], whether the path given
    had the extension or not, and [GetPaths] of the file candidate gives
    the same two candidates again. *)
Theorem GetPaths_file_is_dir_Ext (path : string) :
  (GetPaths path).2 = ((GetPaths path).1 ++ Ext)%string
  /\ GetPaths (GetPaths path).2 = GetPaths path.
Proof.
  destruct (GetPaths_pair path) as [dn ->]. simpl.
  split; [done | apply GetPaths_json].
Qed.

(** X4.  The file candidate of [GetPaths] is always the root file of
    the directory candidate: without its extension it is the directory.
    So [Store] of the file candidate never sets a key path: it returns
    the error of [filepath.Rel] when there is one, as there is for the
    path [..], and otherwise the root error for a value that is not a
    map, and the merge into the root for a map. *)
Theorem GetPaths_file_is_root (path : string) :
  TrimExt (GetPaths path).2 = (GetPaths path).1
  /\ isRoot (GetPaths path).1 (GetPaths path).2 = true
  /\ (forall (y : value) (db : mapref) (h : heap),
        Store (GetPaths path).1 (GetPaths path).2 y db h
        = match filepath_Rel (GetPaths path).1 (GetPaths path).2 with
          | (_, Some err) => Done (Some err) h
          | (_, None) =>
              match y with
              | VMap z => (merge_into db z;; ret None) h
              | _ => Done (Some root_not_a_hash) h
              end
          end)
  /\ filepath_Rel (GetPaths "..").1 (GetPaths "..").2
     = ("", Some (Rel_error ".." "...json")).
Proof.
  destruct (GetPaths_pair path) as [dn ->]. simpl.
  assert (isRoot dn (dn ++ Ext) = true) as Hroot.
  { unfold isRoot. rewrite TrimExt_json. apply String.eqb_refl. }
  rewrite TrimExt_json. split; [done|]. split; [exact Hroot|].
  split; [|vm_compute; reflexivity].
  intros y db h. unfold Store. rewrite Hroot.
  destruct (filepath_Rel dn (dn ++ Ext)) as [rel [err|]]; [done|].
  by destruct y.
Qed.

(** ** Lines and columns *)

Lemma chars_length (s : string) :
  length (list_ascii_of_string s) = String.length s.
Proof. induction s as [|c s IH]; simpl; [done | by rewrite IH]. Qed.

Lemma count_newlines_bounds (bs : list ascii) :
  0 <= count_newlines bs <= Z.of_nat (length bs).
Proof.
  induction bs as [|c bs IH]; simpl; [lia|].
  destruct (Ascii.eqb c newline); lia.
Qed.

(** The last newline, when there is one, is inside the text, and the
    newlines are not more than the bytes up to it. *)
Lemma last_newline_from_spec (bs : list ascii) : forall i,
  0 <= i ->
  (last_newline_from i bs = -1 /\ count_newlines bs = 0)
  \/ (i <= last_newline_from i bs < i + Z.of_nat (length bs)
      /\ 1 <= count_newlines bs <= last_newline_from i bs - i + 1).
Proof.
  induction bs as [|c bs IH]; intros i Hi; simpl; [by left|].
  destruct (IH (i + 1) ltac:(lia)) as [[-> Hc]|[Hl Hc]].
  - simpl. rewrite Hc. destruct (Ascii.eqb c newline); [right; lia | left; lia].
  - destruct (0 <=? last_newline_from (i + 1) bs) eqn:E.
    + right. destruct (Ascii.eqb c newline); lia.
    + apply Z.leb_gt in E. destruct (Ascii.eqb c newline); [right | left]; lia.
Qed.

Section LoaderMore.

Variable os_ReadFile : string -> string * option error.
Variable json_Unmarshal : string -> M (value * option error).
Variable Walk_visits : string -> list (string * bool * option error).

(** X5.  On a syntax error at an offset inside the text, [ReadFile]
    returns what the decoder left and the syntax error wrapped in a
    text that names the file, a line and a column.  Both count from 1;
    the column is the offset plus one exactly on the first line, and
    line and column together never pass the offset by more than two. *)
Theorem ReadFile_line_column (fn bs : string) (v : value) (e : error)
    (off : Z) (h h' : heap) :
  os_ReadFile fn = (bs, None) ->
  json_Unmarshal bs h = Done (v, Some e) h' ->
  As_SyntaxError e = Some off ->
  0 <= off <= Z.of_nat (String.length bs) ->
  exists line col,
    ReadFile os_ReadFile json_Unmarshal fn h
    = Done (v, Some (wrapError
                       ("unmarshaling " ++ fn ++ ":" ++ pretty line ++ ":"
                        ++ pretty col ++ " " ++ Error e) e)) h'
    /\ 1 <= line /\ 1 <= col <= off + 1
    /\ (line = 1 <-> col = off + 1)
    /\ line + col <= off + 2.
Proof.
  intros Hread Hdec Hsyn Hoff.
  set (upto := take (Z.to_nat off) (list_ascii_of_string bs)).
  exists (1 + count_newlines upto), (1 + off - (last_newline_from 0 upto + 1)).
  assert (Z.of_nat (length upto) = off) as Hlen.
  { unfold upto. rewrite length_take, chars_length. lia. }
  split.
  - unfold ReadFile. rewrite Hread.
    rewrite (bind_Done _ _ _ _ _ Hdec). simpl. rewrite Hsyn. simpl.
    destruct (off <? 0) eqn:E1; [apply Z.ltb_lt in E1; lia|].
    destruct (Z.of_nat (String.length bs) <? off) eqn:E2;
      [apply Z.ltb_lt in E2; lia | done].
  - pose proof (count_newlines_bounds upto).
    destruct (last_newline_from_spec upto 0 ltac:(lia)) as [[Hl Hc]|[Hl Hc]]; lia.
Qed.

(** X6.  The file [DoReadAndStore] reads first is the root file of the
    directory it reads next: when the file is there and holds JSON that
    is not an object, [DoReadAndStore] fails with the root error and
    does not read the directory. *)
Theorem DoReadAndStore_top_file_not_a_map (path bs rel : string)
    (db : mapref) (v : value) (h h0 : heap) :
  os_ReadFile (GetPaths path).2 = (bs, None) ->
  json_Unmarshal bs h = Done (v, None) h0 ->
  is_map v = false ->
  filepath_Rel (GetPaths path).1 (GetPaths path).2 = (rel, None) ->
  DoReadAndStore os_ReadFile json_Unmarshal Walk_visits path db h
  = Done (Some root_not_a_hash) h0.
Proof.
  intros Hread Hdec Hv Hrel. unfold DoReadAndStore.
  destruct (GetPaths_pair path) as [dn E]. rewrite E in *. simpl in *.
  set (fn := (dn ++ Ext)%string) in *.
  assert (isRoot dn fn = true) as Hroot.
  { unfold isRoot, fn. rewrite TrimExt_json. apply String.eqb_refl. }
  assert (ReadAndStoreFile os_ReadFile json_Unmarshal dn fn db h
          = Done (Some root_not_a_hash) h0) as Hfile.
  { unfold ReadAndStoreFile, ReadFile. rewrite Hread. unM. rewrite Hdec. simpl.
    unfold Store. rewrite Hrel, Hroot. by destruct v. }
  by rewrite (bind_Done _ _ _ _ _ Hfile).
Qed.

(** X7.  The walk of [ReadAndStoreDir] goes through the visits in order
    and stops at the first error: what the visits before it stored
    stays stored, and the visits after it are not looked at. *)
Theorem walk_calls_app (ind : string) (db : mapref)
    (before after : list (string * bool * option error)) (h : heap) :
  walk_calls os_ReadFile json_Unmarshal ind db (before ++ after) h
  = match walk_calls os_ReadFile json_Unmarshal ind db before h with
    | Done None h1 => walk_calls os_ReadFile json_Unmarshal ind db after h1
    | stopped => stopped
    end.
Proof.
  revert h. induction before as [|[[fn is_dir] err] before IH]; intros h; [done|].
  cbn [app walk_calls]. destruct err as [e|]; [done|].
  destruct is_dir; [apply IH|]. unM.
  destruct (ReadAndStoreFile os_ReadFile json_Unmarshal ind fn db h)
    as [[e|] h1|msg]; [done | apply IH | done].
Qed.


End LoaderMore.

(** ** What [SetF] never takes away *)

Lemma grows_refl (h : heap) : grows h h.
Proof. intros l m Hl. by exists m. Qed.

Lemma grows_trans (h1 h2 h3 : heap) : grows h1 h2 -> grows h2 h3 -> grows h1 h3.
Proof.
  intros H12 H23 l m Hl. destruct (H12 l m Hl) as (m2 & Hl2 & Hd2).
  destruct (H23 l m2 Hl2) as (m3 & Hl3 & Hd3). exists m3. split; [done|].
  set_solver.
Qed.

Lemma grows_set_content p m m' (h : heap) :
  content h p = Some m -> dom m ⊆ dom m' -> grows h (set_content p m' h).
Proof.
  intros Hp Hd l m0 Hl. destruct p as [lp|]; [simpl in *|by exists m0].
  destruct (decide (lp = l)) as [->|].
  - rewrite lookup_insert_eq. exists m'. split; [done|].
    rewrite Hp in Hl. by injection Hl as <-.
  - rewrite lookup_insert_ne by done. by exists m0.
Qed.

Lemma map_assign_grows p x v (h h' : heap) :
  map_assign p x v h = Done tt h' -> grows h h'.
Proof.
  unfold map_assign. destruct (content h p) as [m|] eqn:Hp; [|done].
  intros [= <-]. apply (grows_set_content p m); [done|].
  rewrite dom_insert_L. set_solver.
Qed.

Lemma assign_all_grows q kvs : forall (h h' : heap),
  assign_all q kvs h = Done tt h' -> grows h h'.
Proof.
  induction kvs as [|[k x] kvs IH]; intros h h'; simpl.
  - intros [= <-]. apply grows_refl.
  - unM. destruct (map_assign q k x h) as [[] h1|] eqn:E; [|done].
    intros H. eapply grows_trans; [by eapply map_assign_grows | by eapply IH].
Qed.

Lemma make_map_grows (h : heap) : grows h (<[fresh (dom h) := ∅]> h).
Proof.
  intros l m Hl. exists m. split; [|done].
  rewrite lookup_insert_ne; [done|]. intros E.
  pose proof (make_map_fresh h) as F. rewrite E in F. congruence.
Qed.

Lemma fresh_child_grows p x r (h h' : heap) :
  fresh_child p x h = Done r h' -> grows h h'.
Proof.
  unfold fresh_child, make_map. unM.
  destruct (map_assign p x (VMap (Some (fresh (dom h)))) (<[fresh (dom h) := ∅]> h))
    as [[] h1|] eqn:E; [|done].
  rewrite map_index_run.
  destruct (default VNil (map_of h1 p !! x)); try done.
  intros [= _ <-].
  eapply grows_trans; [apply make_map_grows | by eapply map_assign_grows].
Qed.

Lemma try_merge_grows flags v p x b (h h' : heap) :
  try_merge flags v p x h = Done b h' -> grows h h'.
Proof.
  unfold try_merge. destruct (has_flag flags MergeMaps);
    [|intros [= _ <-]; apply grows_refl].
  unM. rewrite map_index_run.
  destruct v; try (intros [= _ <-]; apply grows_refl).
  destruct (default VNil (map_of h p !! x)); try (intros [= _ <-]; apply grows_refl).
  unfold merge_into, map_range. unM.
  destruct (assign_all r0 (map_to_list (map_of h r)) h) as [[] h1|] eqn:E; [|done].
  intros [= _ <-]. by eapply assign_all_grows.
Qed.

Lemma try_append_grows T flags v p x b (h h' : heap) :
  try_append T flags v p x h = Done b h' -> grows h h'.
Proof.
  unfold try_append. destruct (has_flag flags AppendArrays);
    [|intros [= _ <-]; apply grows_refl].
  unM. rewrite map_index_run.
  destruct (type_assert (TSlice T) v) as [[]|];
    try (intros [= _ <-]; apply grows_refl).
  destruct (type_assert (TSlice T) (default VNil (map_of h p !! x))) as [[]|];
    try (intros [= _ <-]; apply grows_refl).
  destruct (map_assign p x (VSlice T (xs0 ++ xs)) h) as [[] h1|] eqn:E; [|done].
  intros [= _ <-]. by eapply map_assign_grows.
Qed.

Lemma SetF_loop_grows T xs v flags rest : forall n p e (h h' : heap),
  SetF_loop T xs v flags n rest p h = Done e h' -> grows h h'.
Proof.
  induction rest as [|x rest IH]; intros n p e h h'; cbn [SetF_loop].
  { intros [= _ <-]. apply grows_refl. }
  destruct (n =? length xs - 1)%nat.
  - unM. destruct (try_merge flags v p x h) as [merged h1|] eqn:E1; [|done].
    pose proof (try_merge_grows _ _ _ _ _ _ _ E1) as G1.
    destruct merged.
    { intros H. eapply grows_trans; [done | by eapply IH]. }
    destruct (try_append T flags v p x h1) as [appended h2|] eqn:E2; [|done].
    pose proof (try_append_grows _ _ _ _ _ _ _ _ E2) as G2.
    destruct appended.
    { intros H. eapply grows_trans; [done|].
      eapply grows_trans; [done | by eapply IH]. }
    destruct (map_assign p x v h2) as [[] h3|] eqn:E3; [|done].
    intros [= _ <-]. eapply grows_trans; [done|].
    eapply grows_trans; [done | by eapply map_assign_grows].
  - unM. rewrite map_lookup_run.
    assert (forall hh, (match fresh_child p x h with
                        | Done a h1 => SetF_loop T xs v flags (n + 1) rest a h1
                        | Panic msg => Panic msg
                        end) = Done e hh -> grows h hh) as Hfresh.
    { intros hh. destruct (fresh_child p x h) as [r h1|] eqn:E; [|done].
      intros H. eapply grows_trans; [by eapply fresh_child_grows | by eapply IH]. }
    destruct (map_of h p !! x) as [q|]; [|apply Hfresh].
    destruct q; try (destruct (has_flag flags ForceThrough); simpl;
                     [apply Hfresh | intros [= _ <-]; apply grows_refl]).
    apply IH.
Qed.

(** X9.  [SetF] takes nothing away: in the store it leaves, every map
    that was made is still made and has every key it had. *)
Theorem SetF_never_deletes (T : ty) (db : mapref) (xs : list string)
    (v : value) (flags : SetFlags) (e : option error) (h h' : heap) :
  SetF T db xs v flags h = Done e h' -> grows h h'.
Proof. apply SetF_loop_grows. Qed.

(** ** [SetF] in a map it has just made *)

Lemma assertable_nil T : assertable T VNil = false.
Proof.
  unfold assertable. apply bool_decide_eq_false_2. intros [r Hr].
  by destruct T.
Qed.

(** From an empty made map on, [SetF] makes the maps of the remaining
    segments and sets the value: it returns no error, whatever the flags
    and the value, and changes no other map that was made. *)
Lemma SetF_from_empty T v flags rest : forall pre p (h : heap),
  rest ≠ [] -> content h p = Some ∅ ->
  exists h',
    SetF_loop T (pre ++ rest) v flags (length pre) rest p h = Done None h'
    /\ forall l, is_Some (h !! l) -> Some l ≠ p -> h' !! l = h !! l.
Proof.
  induction rest as [|x rest IH]; intros pre p h Hne Hp; [done|].
  destruct p as [lp|]; [simpl in Hp|done].
  destruct rest as [|y rest].
  - exists (<[lp := {[x := v]}]> h). split.
    + rewrite (SetF_loop_final_assign T flags v pre x (Some lp) h ∅ Hp).
      * simpl. by rewrite insert_empty.
      * rewrite lookup_empty. unfold merge_applies. simpl. apply andb_false_r.
      * rewrite lookup_empty. unfold append_applies. simpl.
        rewrite assertable_nil. apply andb_false_r.
    + intros l _ Hl. apply lookup_insert_ne. congruence.
  - pose proof (SetF_loop_inner_made T v flags pre x (y :: rest) (Some lp) h ∅
                  ltac:(done) Hp) as E.
    cbv zeta in E. rewrite lookup_empty in E. rewrite E. clear E.
    set (l := fresh (dom h)).
    assert (h !! l = None) as Hfresh by apply make_map_fresh.
    assert (l ≠ lp) as Hl by congruence.
    rewrite (length_snoc pre x), (cons_middle x pre), (assoc_L (++)).
    destruct (IH (pre ++ [x]) (Some l)
                (set_content (Some lp) (<[x := VMap (Some l)]> ∅) (<[l := ∅]> h)))
      as (h' & Hset & Hframe); [done | |].
    { simpl. rewrite lookup_insert_ne by done. apply lookup_insert_eq. }
    exists h'. split; [exact Hset|].
    intros l0 Hl0 Hne0.
    assert (l ≠ l0) by (intros <-; rewrite Hfresh in Hl0; by destruct Hl0).
    assert (lp ≠ l0) by congruence.
    rewrite Hframe; simpl; [|by rewrite !lookup_insert_ne by done | congruence].
    by rewrite !lookup_insert_ne by done.
Qed.

(** ** Errors of [SetF] *)

Lemma SetF_loop_final_no_error T xs v flags n x p e (h h' : heap) :
  (merged ← try_merge flags v p x;
   if merged : bool then SetF_loop T xs v flags (n + 1) [] p
   else appended ← try_append T flags v p x;
        if appended : bool then SetF_loop T xs v flags (n + 1) [] p
        else map_assign p x v;; ret None) h = Done e h' ->
  e = None.
Proof.
  unM. destruct (try_merge flags v p x h) as [[] h1|]; simpl;
    [by intros [= <- _] | | done].
  destruct (try_append T flags v p x h1) as [[] h2|]; simpl;
    [by intros [= <- _] | | done].
  destruct (map_assign p x v h2) as [[] h3|]; [by intros [= <- _] | done].
Qed.

Lemma SetF_loop_error T v flags rest : forall pre p e (h h' : heap),
  is_Some (content h p) -> closed h ->
  SetF_loop T (pre ++ rest) v flags (length pre) rest p h = Done (Some e) h' ->
  h' = h /\ has_flag flags ForceThrough = false
  /\ exists k, (length pre < k < length pre + length rest)%nat
               /\ e = bad_path (take k (pre ++ rest)).
Proof.
  induction rest as [|x rest IH]; intros pre p e h h' [m Hp] Hc; [done|].
  destruct rest as [|y rest].
  - rewrite SetF_loop_final. intros H.
    pose proof (SetF_loop_final_no_error T (pre ++ [x]) v flags (length pre)
                  x p (Some e) h h') as Hno.
    cbn [SetF_loop] in Hno. by specialize (Hno H).
  - pose proof (SetF_loop_inner_made T v flags pre x (y :: rest) p h m
                  ltac:(done) Hp) as E.
    cbv zeta in E. rewrite E. clear E.
    assert (forall hh,
      SetF_loop T (pre ++ x :: y :: rest) v flags (length pre + 1) (y :: rest)
        (Some (fresh (dom h)))
        (set_content p (<[x := VMap (Some (fresh (dom h)))]> m)
           (<[fresh (dom h) := ∅]> h)) ≠ Done (Some e) hh) as Hfresh.
    { intros hh. rewrite (length_snoc pre x), (cons_middle x pre), (assoc_L (++)).
      destruct (SetF_from_empty T v flags (y :: rest) (pre ++ [x])
                  (Some (fresh (dom h)))
                  (set_content p (<[x := VMap (Some (fresh (dom h)))]> m)
                     (<[fresh (dom h) := ∅]> h))) as (h1 & -> & _); [done| |done].
      pose proof (make_map_fresh h) as F.
      destruct p as [lp|]; [simpl in *|done].
      rewrite lookup_insert_ne by congruence. apply lookup_insert_eq. }
    destruct (m !! x) as [q|] eqn:Ex; [|intros H; by destruct (Hfresh h')].
    destruct (is_map q) eqn:Eq.
    + destruct q as [| | | | |r|]; try done.
      rewrite (length_snoc pre x), (cons_middle x pre), (assoc_L (++)).
      intros H. destruct (IH (pre ++ [x]) r e h h') as (-> & Hf & k & Hk & ->);
        [|done|done|].
      { destruct p as [lp|]; [simpl in Hp|done]. by apply (Hc lp m x r). }
      split; [done|]. split; [done|]. exists k. split; [|done].
      rewrite length_app in Hk. simpl in *. lia.
    + assert ((if has_flag flags ForceThrough
               then SetF_loop T (pre ++ x :: y :: rest) v flags (length pre + 1)
                      (y :: rest) (Some (fresh (dom h)))
                      (set_content p (<[x := VMap (Some (fresh (dom h)))]> m)
                         (<[fresh (dom h) := ∅]> h))
               else Done (Some (bad_path (pre ++ [x]))) h)
              = Done (Some e) h' ->
              h' = h /\ has_flag flags ForceThrough = false
              /\ exists k, (length pre < k < length pre + length (x :: y :: rest))%nat
                           /\ e = bad_path (take k (pre ++ x :: y :: rest))) as Hcase.
      { destruct (has_flag flags ForceThrough); [intros H; by destruct (Hfresh h')|].
        intros [= <- <-]. split; [done|]. split; [done|].
        exists (length pre + 1)%nat. split; [simpl; lia|].
        by rewrite take_prefix_one. }
      destruct q; try done; apply Hcase.
Qed.

(** X10.  In a tree whose root is made and whose maps hold made maps,
    [SetF] fails without a trace: when it returns an error the store is
    as it was, [ForceThrough] was not set, and the error is the bad path
    error of a segment before the last, with the segments before it. *)
Theorem SetF_error_leaves_store (T : ty) (db : mapref) (xs : list string)
    (v : value) (flags : SetFlags) (e : error) (h h' : heap) :
  is_Some (content h db) -> closed h ->
  SetF T db xs v flags h = Done (Some e) h' ->
  h' = h /\ has_flag flags ForceThrough = false
  /\ exists k, (0 < k < length xs)%nat /\ e = bad_path (take k xs).
Proof.
  intros Hdb Hc H.
  destruct (SetF_loop_error T v flags xs [] db e h h' Hdb Hc H)
    as (-> & Hf & k & Hk & ->).
  split; [done|]. split; [done|]. exists k. simpl in Hk. by split.
Qed.

(** ** What [Get] finds *)

Lemma walk_None_split (h : heap) ks : forall p,
  walk h p ks = None ->
  exists a k b p',
    ks = a ++ k :: b /\ walk h p a = Some p'
    /\ forall r, map_of h p' !! k ≠ Some (VMap r).
Proof.
  induction ks as [|k ks IH]; intros p; simpl; [done|].
  destruct (map_of h p !! k) as [q|] eqn:E.
  - destruct (is_map q) eqn:Eq.
    + destruct q as [| | | | |r|]; try done. intros Hw.
      destruct (IH r Hw) as (a & k' & b & p' & -> & Ha & Hk').
      exists (k :: a), k', b, p'. simpl. by rewrite E.
    + intros _. exists [], k, ks, p. repeat split. intros r Hr.
      rewrite E in Hr. injection Hr as ->. done.
  - intros _. exists [], k, ks, p. repeat split. intros r Hr. congruence.
Qed.

(** What [Get] returns for a path [pre ++ [x]], in the two cases of the
    walk through [pre]. *)
Lemma Get_cases (T : ty) (h : heap) (db : mapref) (pre : list string) (x : string) :
  (exists p, walk h db pre = Some p
             /\ Get T db (pre ++ [x]) h
                = Done (Get_answer T (pre ++ [x]) (map_of h p !! x)) h)
  \/ (walk h db pre = None
      /\ exists k, (0 < k <= length pre)%nat
                   /\ Get T db (pre ++ [x]) h
                      = Done (zero_value T, Some (bad_path (take k (pre ++ [x])))) h).
Proof.
  destruct (walk h db pre) as [p|] eqn:Hw.
  - left. exists p. split; [done|]. by apply Get_at_last.
  - right. split; [done|].
    destruct (walk_None_split h pre db Hw) as (a & k & b & p' & -> & Ha & Hk).
    exists (length a + 1)%nat. split; [rewrite length_app; simpl; lia|].
    rewrite <- (assoc_L (++)). simpl.
    rewrite (Get_stops_inner T h db a k (b ++ [x]) p' Ha) by (by destruct b).
    by rewrite take_prefix_one.
Qed.

(** X11.  [Get[T]] returns a value, and no error, exactly when the
    segments before the last lead through maps to a map that holds,
    under the last segment, a value the assertion to [T] accepts; the
    value returned is that value. *)
Theorem Get_finds_iff (T : ty) (db : mapref) (xs : list string) (r : value)
    (h : heap) :
  Get T db xs h = Done (r, None) h
  <-> exists pre x p,
        xs = pre ++ [x] /\ walk h db pre = Some p
        /\ map_of h p !! x = Some r /\ type_assert T r = Some r.
Proof.
  split.
  - destruct xs as [|x0 xs0] using rev_ind; [done|]. clear IHxs0.
    intros H. destruct (Get_cases T h db xs0 x0) as [(p & Hw & E)|(_ & k & _ & E)];
      rewrite E in H; [|discriminate H].
    exists xs0, x0, p. unfold Get_answer in H.
    destruct (map_of h p !! x0) as [q|] eqn:Hx; [|discriminate H].
    destruct (type_assert T q) as [r'|] eqn:Hq; [|discriminate H].
    injection H as <-. pose proof (type_assert_Some _ _ _ Hq) as ->. done.
  - intros (pre & x & p & -> & Hw & Hx & Hr).
    rewrite (Get_at_last T h db pre x p Hw). unfold Get_answer.
    by rewrite Hx, Hr.
Qed.

(** X12.  Every error of [Get] comes with the zero value of [T] and is
    one of two: the bad path error of the first segments of the path up
    to one that is absent or, before the last, holds no map (of no
    segment for the empty path), or the bad type error of the whole
    path. *)
Theorem Get_errors (T : ty) (db : mapref) (xs : list string) (z : value)
    (e : error) (h h' : heap) :
  Get T db xs h = Done (z, Some e) h' ->
  z = zero_value T
  /\ ((exists k, (k <= length xs)%nat /\ (xs ≠ [] -> 0 < k)%nat
                 /\ e = bad_path (take k xs))
      \/ (exists got, xs ≠ []
                      /\ e = bad_type xs got (dyn_type (zero_value T)))).
Proof.
  destruct xs as [|x0 xs0] using rev_ind.
  { intros [= <- <- _]. split; [done|]. left. exists 0%nat. by repeat split. }
  clear IHxs0. intros H.
  destruct (Get_cases T h db xs0 x0) as [(p & Hw & E)|(_ & k & Hk & E)];
    rewrite E in H.
  - unfold Get_answer in H. destruct (map_of h p !! x0) as [q|].
    + destruct (type_assert T q); [done|]. injection H as <- <- _.
      split; [done|]. right. exists (dyn_type q). split; [by destruct xs0 | done].
    + injection H as <- <- _. split; [done|]. left.
      exists (length (xs0 ++ [x0])). split; [done|]. split.
      * rewrite length_app. simpl. lia.
      * by rewrite firstn_all.
  - injection H as <- <- _. split; [done|]. left. exists k.
    rewrite length_app. simpl. repeat split; lia.
Qed.

(** ** Setting in a tree, then getting *)

Lemma walk_keeps_maps (h h' : heap) ks : forall p p',
  keeps_maps h h' -> walk h p ks = Some p' -> walk h' p ks = Some p'.
Proof.
  induction ks as [|k ks IH]; intros p p' Hk; simpl; [done|].
  destruct (map_of h p !! k) as [[| | | | |r|]|] eqn:E; try done.
  rewrite (Hk p k r E). by apply IH.
Qed.

Lemma map_of_set_content_same p m m' (h : heap) :
  content h p = Some m -> map_of (set_content p m' h) p = m'.
Proof.
  intros Hp. unfold map_of. by rewrite (content_set_same p m m' h Hp).
Qed.

Lemma map_of_set_content_other p r m' (h : heap) :
  r ≠ p -> map_of (set_content p m' h) r = map_of h r.
Proof.
  intros Hne. unfold map_of. destruct p as [lp|]; [|done].
  destruct r as [lr|]; [simpl|done]. rewrite lookup_insert_ne; [done|congruence].
Qed.

(** Setting a key that held no map keeps every entry that holds a map. *)
Lemma keeps_maps_set_key p x v m (h : heap) :
  content h p = Some m -> (forall r, m !! x ≠ Some (VMap r)) ->
  keeps_maps h (set_content p (<[x := v]> m) h).
Proof.
  intros Hp Hx r k q Hq. destruct (decide (r = p)) as [->|Hne].
  - rewrite (map_of_set_content_same p m _ h Hp).
    rewrite (map_of_content _ _ _ Hp) in Hq.
    destruct (decide (x = k)) as [->|]; [by destruct (Hx q)|].
    by rewrite lookup_insert_ne.
  - by rewrite map_of_set_content_other.
Qed.

(** X13.  Round trip in a tree.  When the path leads through maps to a
    map in which the next segment is absent, or is the last segment and
    holds a value that is not a map, [Set] returns no error and [Get[T]]
    at the same path then returns exactly the value set when the
    assertion to [T] accepts it, and the bad type error of the path
    otherwise. *)
Theorem Set_then_Get_in_tree (T : ty) (db p : mapref) (pre : list string)
    (y : string) (more : list string) (v : value) (h : heap)
    (m : gmap string value) :
  walk h db pre = Some p -> content h p = Some m ->
  match m !! y with
  | None => True
  | Some q => more = [] /\ is_map q = false
  end ->
  let xs := pre ++ y :: more in
  exists h',
    Set_ db xs v h = Done None h'
    /\ Get T db xs h' =
       Done (if assertable T v then (v, None)
             else (zero_value T,
                   Some (bad_type xs (dyn_type v) (dyn_type (zero_value T))))) h'.
Proof.
  intros Hw Hp Hy xs. subst xs.
  assert (forall r, m !! y ≠ Some (VMap r)) as Hnomap.
  { intros r E. rewrite E in Hy. by destruct Hy. }
  assert (forall oq, oq = Some v ->
            Get_answer T (pre ++ y :: more) oq
            = if assertable T v then (v, None)
              else (zero_value T,
                    Some (bad_type (pre ++ y :: more) (dyn_type v)
                            (dyn_type (zero_value T))))) as Hans.
  { intros oq ->. unfold Get_answer, assertable.
    destruct (type_assert T v) as [r|] eqn:E.
    - rewrite bool_decide_eq_true_2 by eauto. by rewrite (type_assert_Some _ _ _ E).
    - rewrite bool_decide_eq_false_2; [done|]. by intros [? ?]. }
  unfold Set_. rewrite (SetF_reaches TAny v MergeMaps db pre (y :: more) p h Hw)
    by done.
  destruct more as [|z more].
  - (* the last segment: plain assignment *)
    exists (set_content p (<[y := v]> m) h). split.
    + apply SetF_loop_final_assign; [done| |done].
      unfold merge_applies. destruct (m !! y) as [q|]; simpl.
      * destruct Hy as [_ ->]. apply andb_false_r.
      * apply andb_false_r.
    + rewrite (Get_at_last T _ db pre y p).
      * rewrite (map_of_set_content_same p m _ h Hp), lookup_insert_eq.
        by rewrite Hans.
      * apply (walk_keeps_maps h); [by apply keeps_maps_set_key | done].
  - (* an absent segment: the maps of the rest are made *)
    destruct (m !! y) as [q|] eqn:Ey; [by destruct Hy|].
    pose proof (SetF_loop_inner_made TAny v MergeMaps pre y (z :: more) p h m
                  ltac:(done) Hp) as E.
    cbv zeta in E. rewrite Ey in E. rewrite E. clear E.
    set (l := fresh (dom h)).
    assert (h !! l = None) as Hfresh by apply make_map_fresh.
    destruct p as [lp|]; [simpl in Hp|done].
    assert (l ≠ lp) as Hl by congruence.
    set (h2 := set_content (Some lp) (<[y := VMap (Some l)]> m) (<[l := ∅]> h)).
    destruct (Set_from_empty T v (z :: more) (pre ++ [y]) (Some l) h2)
      as (h' & Hset & Hframe & Hget); [done | |].
    { unfold h2. simpl. rewrite lookup_insert_ne by done. apply lookup_insert_eq. }
    rewrite <- (length_snoc pre y), <- (assoc_L (++)) in Hset, Hget.
    cbn [app] in Hset, Hget.
    exists h'. split; [exact Hset|].
    assert (h' !! lp = Some (<[y := VMap (Some l)]> m)) as Hlp.
    { rewrite Hframe; [apply lookup_insert_eq | unfold h2; simpl;
                       by rewrite lookup_insert_eq | congruence]. }
    assert (keeps_maps h h') as Hkeep.
    { intros r k q Hq. destruct r as [lr|]; [|done].
      assert (is_Some (h !! lr)) as Hmade.
      { unfold map_of in Hq. simpl in Hq. destruct (h !! lr); [done|].
        simpl in Hq. by rewrite lookup_empty in Hq. }
      assert (l ≠ lr) by (intros <-; rewrite Hfresh in Hmade; by destruct Hmade).
      unfold map_of. simpl. destruct (decide (lp = lr)) as [<-|].
      - rewrite Hlp. simpl. unfold map_of in Hq. simpl in Hq.
        rewrite Hp in Hq. simpl in Hq.
        destruct (decide (y = k)) as [<-|]; [congruence|].
        by rewrite lookup_insert_ne.
      - rewrite Hframe; [|unfold h2; simpl; by rewrite !lookup_insert_ne by done
                         |congruence].
        unfold h2. simpl. by rewrite !lookup_insert_ne by done. }
    unfold Get.
    pose proof (Get_loop_walk T pre [] (y :: z :: more) db (Some lp) h'
                  (walk_keeps_maps h h' pre db (Some lp) Hkeep Hw)) as E0.
    cbn [app length] in E0. rewrite E0 by done.
    assert (map_of h' (Some lp) !! y = Some (VMap (Some l))) as Hy'.
    { unfold map_of. simpl. rewrite Hlp. simpl. apply lookup_insert_eq. }
    rewrite Get_loop_inner by done. rewrite Hy', Hget. by rewrite Hans.
Qed.

(** ** The tree stays a tree *)

Lemma closed_set_content (h : heap) q mq m' :
  closed h -> content h q = Some mq ->
  (forall k r, m' !! k = Some (VMap r) -> is_Some (content h r)) ->
  closed (set_content q m' h).
Proof.
  intros Hc Hq Hm' l m0 k r Hl Hk.
  destruct q as [lq|]; [simpl in *|by apply (Hc l m0 k r)].
  assert (is_Some (content h r)) as Hr.
  { destruct (decide (lq = l)) as [->|].
    - rewrite lookup_insert_eq in Hl. injection Hl as <-. by apply (Hm' k).
    - rewrite lookup_insert_ne in Hl by done. by apply (Hc l m0 k r). }
  destruct r as [lr|]; [simpl in *|done].
  destruct (decide (lq = lr)) as [->|]; [by rewrite lookup_insert_eq|].
  by rewrite lookup_insert_ne.
Qed.

Lemma closed_map_of (h : heap) p k r :
  closed h -> map_of h p !! k = Some (VMap r) -> is_Some (content h r).
Proof.
  intros Hc Hk. unfold map_of in Hk. destruct p as [lp|]; [simpl in Hk|done].
  destruct (h !! lp) as [m|] eqn:E; [by apply (Hc lp m k r)|].
  simpl in Hk. by rewrite lookup_empty in Hk.
Qed.

Lemma SetF_loop_closed T v flags rest : forall pre p e (h h' : heap),
  closed h -> is_Some (content h p) ->
  (forall r, v = VMap r -> is_Some (content h r)) ->
  SetF_loop T (pre ++ rest) v flags (length pre) rest p h = Done e h' ->
  closed h'.
Proof.
  induction rest as [|x rest IH]; intros pre p e h h' Hc [m Hp] Hv.
  { by intros [= _ <-]. }
  assert (forall k r, m !! k = Some (VMap r) -> is_Some (content h r)) as Hm.
  { intros k r Hk. apply (closed_map_of h p k r Hc).
    by rewrite (map_of_content _ _ _ Hp). }
  destruct rest as [|y rest].
  - destruct (merge_applies flags v (default VNil (m !! x))) eqn:Em.
    + unfold merge_applies in Em.
      apply andb_prop in Em as [Em Hq]. apply andb_prop in Em as [Em Hw].
      destruct v as [| | | | |w|]; try done.
      destruct (m !! x) as [[| | | | |q|]|] eqn:Ex; try done.
      destruct (Hm x q Ex) as [mq Hmq].
      rewrite (SetF_loop_final_merge T flags w pre x p h q mq Em);
        [|by rewrite (map_of_content _ _ _ Hp)|done].
      intros [= _ <-]. apply (closed_set_content h q mq); [done|done|].
      intros k r Hk. apply lookup_union_Some_raw in Hk as [Hk|[_ Hk]].
      * by apply (closed_map_of h w k r).
      * apply (closed_map_of h q k r Hc). by rewrite (map_of_content _ _ _ Hmq).
    + destruct (append_applies T flags v (default VNil (m !! x))) eqn:Ea.
      * unfold append_applies in Ea.
        apply andb_prop in Ea as [Ea Hq]. apply andb_prop in Ea as [Ea Hw].
        apply assertable_slice in Hw as [ws ->].
        apply assertable_slice in Hq as [qs Hq].
        rewrite (SetF_loop_final_append T flags ws pre x p h m qs Ea Hp);
          [|destruct (m !! x); simpl in Hq; congruence].
        intros [= _ <-]. apply (closed_set_content h p m); [done|done|].
        intros k r Hk. destruct (decide (x = k)) as [->|].
        -- by rewrite lookup_insert_eq in Hk.
        -- rewrite lookup_insert_ne in Hk by done. by apply (Hm k).
      * rewrite (SetF_loop_final_assign T flags v pre x p h m Hp Em Ea).
        intros [= _ <-]. apply (closed_set_content h p m); [done|done|].
        intros k r Hk. destruct (decide (x = k)) as [->|].
        -- rewrite lookup_insert_eq in Hk. injection Hk as ->. by apply Hv.
        -- rewrite lookup_insert_ne in Hk by done. by apply (Hm k).
  - pose proof (SetF_loop_inner_made T v flags pre x (y :: rest) p h m
                  ltac:(done) Hp) as E.
    cbv zeta in E. rewrite E. clear E.
    assert (h !! fresh (dom h) = None) as Hl by apply make_map_fresh.
    assert (forall hh,
      SetF_loop T (pre ++ x :: y :: rest) v flags (length pre + 1) (y :: rest)
        (Some (fresh (dom h)))
        (set_content p (<[x := VMap (Some (fresh (dom h)))]> m)
           (<[fresh (dom h) := ∅]> h)) = Done e hh -> closed hh) as Hfresh.
    { intros hh. rewrite (length_snoc pre x), (cons_middle x pre), (assoc_L (++)).
      apply IH.
      - by apply closed_fresh_child.
      - destruct p as [lp|]; [simpl in *|done].
        rewrite lookup_insert_ne by congruence. by rewrite lookup_insert_eq.
      - intros r Hr. apply content_mono_fresh_child; [done|done|by apply Hv]. }
    destruct (m !! x) as [q|] eqn:Ex; [|apply Hfresh].
    destruct q as [| | | | |r|];
      try (destruct (has_flag flags ForceThrough);
           [apply Hfresh | by intros [= _ <-]]).
    rewrite (length_snoc pre x), (cons_middle x pre), (assoc_L (++)).
    apply IH; [done | by apply (Hm x) | done].
Qed.

(** X14.  [SetF] keeps a tree a tree: when the root is a made map, the
    maps hold made maps only and the value set is not a nil map, the
    same holds of the store [SetF] leaves, with or without an error. *)
Theorem SetF_keeps_tree (T : ty) (db : mapref) (xs : list string) (v : value)
    (flags : SetFlags) (e : option error) (h h' : heap) :
  closed h -> is_Some (content h db) ->
  (forall r, v = VMap r -> is_Some (content h r)) ->
  SetF T db xs v flags h = Done e h' ->
  closed h' /\ is_Some (content h' db).
Proof.
  intros Hc Hdb Hv H. split.
  - by apply (SetF_loop_closed T v flags xs [] db e h h').
  - destruct db as [l|]; [simpl in *|by destruct Hdb].
    destruct Hdb as [m Hm].
    destruct (SetF_loop_grows _ _ _ _ _ _ _ _ _ _ H l m Hm) as (m' & -> & _).
    by eexists.
Qed.

(** ** Appending twice, merging twice *)


Lemma walk_in_path_maps (h : heap) ks : forall p p',
  walk h p ks = Some p' -> p' ∈ path_maps h p ks.
Proof.
  induction ks as [|k ks IH]; intros p p'; simpl.
  - intros [= ->]. set_solver.
  - destruct (map_of h p !! k) as [[| | | | |r|]|]; try done.
    intros Hw. apply elem_of_cons. right. by apply IH.
Qed.

Lemma walk_same_on_path (h h' : heap) ks : forall p,
  (forall r, r ∈ path_maps h p ks -> map_of h' r = map_of h r) ->
  walk h' p ks = walk h p ks.
Proof.
  induction ks as [|k ks IH]; intros p Hsame; simpl; [done|].
  rewrite (Hsame p) by (simpl; set_solver).
  destruct (map_of h p !! k) as [[| | | | |r|]|] eqn:E; try done.
  apply IH. intros r' Hr'. apply Hsame. simpl. rewrite E. set_solver.
Qed.

(** X16.  Merging is idempotent: when [Set] has merged a map into the
    made map under the last segment of a path that does not go through
    that map, [Set] of the same map at the same path changes nothing. *)
Theorem Set_merge_idempotent (db p q w : mapref) (pre : list string)
    (x : string) (h : heap) (mq : gmap string value) :
  walk h db pre = Some p -> map_of h p !! x = Some (VMap q) ->
  content h q = Some mq -> q ∉ path_maps h db pre ->
  exists h1,
    Set_ db (pre ++ [x]) (VMap w) h = Done None h1
    /\ h1 = set_content q (map_of h w ∪ mq) h
    /\ Set_ db (pre ++ [x]) (VMap w) h1 = Done None h1.
Proof.
  intros Hw Hx Hq Hnotin.
  set (h1 := set_content q (map_of h w ∪ mq) h).
  assert (forall r, r ∈ path_maps h db pre -> map_of h1 r = map_of h r) as Hsame.
  { intros r Hr. apply map_of_set_content_other. by intros ->. }
  exists h1. split; [|split; [done|]].
  - unfold Set_. rewrite (SetF_reaches TAny _ MergeMaps db pre [x] p h Hw) by done.
    by apply SetF_loop_final_merge.
  - assert (walk h1 db pre = Some p) as Hw1
      by (by rewrite (walk_same_on_path h h1 pre db Hsame)).
    unfold Set_.
    rewrite (SetF_reaches TAny _ MergeMaps db pre [x] p h1 Hw1) by done.
    rewrite (SetF_loop_final_merge TAny MergeMaps w pre x p h1 q
               (map_of h w ∪ mq)); [|done| |by apply (content_set_same q mq)].
    + f_equal. unfold h1. rewrite set_content_twice. f_equal.
      destruct (decide (w = q)) as [->|Hne].
      * rewrite (map_of_set_content_same q mq _ h Hq).
        rewrite (map_of_content _ _ _ Hq).
        by rewrite !(idemp_L (∪)).
      * rewrite (map_of_set_content_other q w _ h Hne).
        by rewrite (assoc_L (∪)), (idemp_L (∪)).
    + rewrite (Hsame p) by (by apply walk_in_path_maps). done.
Qed.

(** ** The maps [SetF] leaves alone *)



(** ** The properties above, on trees of the tests *)

Lemma closedb_closed (h : heap) : closedb h = true -> closed h.
Proof.
  unfold closedb. rewrite bool_decide_eq_true. intros H l m k r Hl Hk.
  exact (H l m Hl k (VMap r) Hk).
Qed.

Lemma tree_to_foo_closed : closed tree_to_foo.
Proof. apply closedb_closed. vm_compute. reflexivity. Qed.

Lemma ReadFile_line_column_witness :
  exists line col,
    ReadFile (fun _ => (two_lines, None)) syntax_error_at_5 "db.json" ∅
    = Done (VNil,
            Some (wrapError
                    ("unmarshaling " ++ "db.json" ++ ":" ++ pretty line ++ ":"
                     ++ pretty col ++ " "
                     ++ Error (SyntaxError "invalid character" 5))
                    (SyntaxError "invalid character" 5))) ∅
    /\ 1 <= line /\ 1 <= col <= 5 + 1
    /\ (line = 1 <-> col = 5 + 1)
    /\ line + col <= 5 + 2.
Proof.
  apply (ReadFile_line_column (fun _ => (two_lines, None)) syntax_error_at_5
           "db.json" two_lines VNil (SyntaxError "invalid character" 5) 5 ∅ ∅);
    [reflexivity | reflexivity | reflexivity | vm_compute; split; discriminate].
Defined.

Lemma DoReadAndStore_top_file_not_a_map_witness :
  DoReadAndStore (fun _ => (doc_string, None)) demo_Unmarshal demo_Walk "root"
    (Some 1%positive) {[1%positive := ∅]}
  = Done (Some root_not_a_hash) {[1%positive := ∅]}.
Proof.
  apply (DoReadAndStore_top_file_not_a_map (fun _ => (doc_string, None))
           demo_Unmarshal demo_Walk "root" doc_string "../root.json"
           (Some 1%positive) (VString "baz") {[1%positive := ∅]}
           {[1%positive := ∅]});
    vm_compute; reflexivity.
Defined.


Lemma SetF_never_deletes_witness :
  grows tree_to_foo
    {[1%positive := {["to" := VMap (Some 2%positive)]};
      2%positive := {["foo" := VString "bar"; "bar" := VString "baz"]};
      3%positive := {["bar" := VString "baz"]};
      4%positive := {["funky" := VString "town"]}]}.
Proof.
  apply (SetF_never_deletes TAny (Some 1%positive) ["to"]
           (VMap (Some 3%positive)) MergeMaps None tree_to_foo).
  vm_compute. reflexivity.
Defined.

Lemma SetF_error_leaves_store_witness :
  {[1%positive := {["foo" := VString "bar"]}]}
  = ({[1%positive := {["foo" := VString "bar"]}]} : heap)
  /\ has_flag MergeMaps ForceThrough = false
  /\ exists k, (0 < k < length ["foo"; "bar"])%nat
               /\ bad_path ["foo"] = bad_path (take k ["foo"; "bar"]).
Proof.
  apply (SetF_error_leaves_store TAny (Some 1%positive) ["foo"; "bar"]
           (VInt 1) MergeMaps (bad_path ["foo"])
           {[1%positive := {["foo" := VString "bar"]}]}
           {[1%positive := {["foo" := VString "bar"]}]}).
  - eexists. vm_compute. reflexivity.
  - apply closedb_closed. vm_compute. reflexivity.
  - vm_compute. reflexivity.
Defined.

Lemma Get_errors_witness :
  VString "" = zero_value TString
  /\ ((exists k, (k <= length ["foo"; "bar"])%nat
                 /\ (["foo"; "bar"] ≠ [] -> 0 < k)%nat
                 /\ bad_path ["foo"] = bad_path (take k ["foo"; "bar"]))
      \/ (exists got, ["foo"; "bar"] ≠ []
                      /\ bad_path ["foo"]
                         = bad_type ["foo"; "bar"] got (dyn_type (zero_value TString)))).
Proof.
  apply (Get_errors TString (Some 1%positive) ["foo"; "bar"] (VString "")
           (bad_path ["foo"]) {[1%positive := {["foo" := VString "bar"]}]}
           {[1%positive := {["foo" := VString "bar"]}]}).
  vm_compute. reflexivity.
Defined.

Lemma Set_then_Get_in_tree_witness :
  exists h',
    Set_ (Some 1%positive) (["to"] ++ "funky" :: ["town"]) (VInt 7) tree_to_foo
    = Done None h'
    /\ Get TInt (Some 1%positive) (["to"] ++ "funky" :: ["town"]) h'
       = Done (VInt 7, None) h'.
Proof.
  apply (Set_then_Get_in_tree TInt (Some 1%positive) (Some 2%positive) ["to"]
           "funky" ["town"] (VInt 7) tree_to_foo {["foo" := VString "bar"]});
    vm_compute; [reflexivity | reflexivity | exact I].
Defined.

Lemma SetF_keeps_tree_witness :
  closed {[1%positive := {["to" := VMap (Some 2%positive)]};
           2%positive := {["foo" := VString "bar"; "bar" := VString "baz"]};
           3%positive := {["bar" := VString "baz"]};
           4%positive := {["funky" := VString "town"]}]}
  /\ is_Some (content
                {[1%positive := {["to" := VMap (Some 2%positive)]};
                  2%positive := {["foo" := VString "bar"; "bar" := VString "baz"]};
                  3%positive := {["bar" := VString "baz"]};
                  4%positive := {["funky" := VString "town"]}]}
                (Some 1%positive)).
Proof.
  apply (SetF_keeps_tree TAny (Some 1%positive) ["to"] (VMap (Some 3%positive))
           MergeMaps None tree_to_foo).
  - exact tree_to_foo_closed.
  - eexists. vm_compute. reflexivity.
  - intros r [= <-]. eexists. vm_compute. reflexivity.
  - vm_compute. reflexivity.
Defined.


Lemma Set_merge_idempotent_witness :
  exists h1,
    Set_ (Some 1%positive) ([] ++ ["to"]) (VMap (Some 3%positive)) tree_to_foo
    = Done None h1
    /\ h1 = set_content (Some 2%positive)
              (map_of tree_to_foo (Some 3%positive) ∪ {["foo" := VString "bar"]})
              tree_to_foo
    /\ Set_ (Some 1%positive) ([] ++ ["to"]) (VMap (Some 3%positive)) h1
       = Done None h1.
Proof.
  apply (Set_merge_idempotent (Some 1%positive) (Some 1%positive)
           (Some 2%positive) (Some 3%positive) [] "to" tree_to_foo
           {["foo" := VString "bar"]}).
  - reflexivity.
  - vm_compute. reflexivity.
  - vm_compute. reflexivity.
  - simpl. apply not_elem_of_cons. split; [done | apply not_elem_of_nil].
Defined.


(** ** When [SetF] fails *)

Lemma SetF_loop_error_at T v flags rest : forall pre p e (h h' : heap),
  is_Some (content h p) -> closed h ->
  SetF_loop T (pre ++ rest) v flags (length pre) rest p h = Done (Some e) h' ->
  exists a x b p' q,
    rest = a ++ x :: b /\ b ≠ [] /\ walk h p a = Some p'
    /\ map_of h p' !! x = Some q /\ is_map q = false.
Proof.
  induction rest as [|x rest IH]; intros pre p e h h' [m Hp] Hc; [done|].
  destruct rest as [|y rest].
  - intros H. destruct (SetF_loop_error T v flags [x] pre p e h h')
      as (_ & _ & k & Hk & _); [by eexists | done | done |]. simpl in Hk. lia.
  - intros H.
    pose proof (SetF_loop_inner_made T v flags pre x (y :: rest) p h m
                  ltac:(done) Hp) as E.
    cbv zeta in E. rewrite E in H. clear E.
    assert (forall hh,
      SetF_loop T (pre ++ x :: y :: rest) v flags (length pre + 1) (y :: rest)
        (Some (fresh (dom h)))
        (set_content p (<[x := VMap (Some (fresh (dom h)))]> m)
           (<[fresh (dom h) := ∅]> h)) ≠ Done (Some e) hh) as Hfresh.
    { intros hh. rewrite (length_snoc pre x), (cons_middle x pre), (assoc_L (++)).
      destruct (SetF_from_empty T v flags (y :: rest) (pre ++ [x])
                  (Some (fresh (dom h)))
                  (set_content p (<[x := VMap (Some (fresh (dom h)))]> m)
                     (<[fresh (dom h) := ∅]> h))) as (h1 & -> & _); [done| |done].
      pose proof (make_map_fresh h) as F.
      destruct p as [lp|]; [simpl in *|done].
      rewrite lookup_insert_ne by congruence. apply lookup_insert_eq. }
    destruct (m !! x) as [q|] eqn:Ex; [|by destruct (Hfresh h')].
    destruct (is_map q) eqn:Eq.
    + destruct q as [| | | | |r|]; try done.
      rewrite (length_snoc pre x), (cons_middle x pre), (assoc_L (++)) in H.
      destruct (IH (pre ++ [x]) r e h h') as (a & x' & b & p' & q & -> & Hb & Hw & Hq & Hm);
        [|done|done|].
      { apply (closed_map_of h p x r Hc). by rewrite (map_of_content _ _ _ Hp). }
      exists (x :: a), x', b, p', q. simpl.
      rewrite (map_of_content _ _ _ Hp), Ex. done.
    + exists [], x, (y :: rest), p, q. simpl.
      by rewrite (map_of_content _ _ _ Hp).
Qed.

(** X18.  In a tree whose root is made and whose maps hold made maps,
    [SetF] returns an error exactly when [ForceThrough] is not set and
    the path leads through maps to a segment, not the last, that holds a
    value that is not a map. *)
Theorem SetF_fails_iff (T : ty) (db : mapref) (xs : list string) (v : value)
    (flags : SetFlags) (h : heap) :
  is_Some (content h db) -> closed h ->
  (exists e h', SetF T db xs v flags h = Done (Some e) h')
  <-> (has_flag flags ForceThrough = false
       /\ exists pre x post p q,
            xs = pre ++ x :: post /\ post ≠ [] /\ walk h db pre = Some p
            /\ map_of h p !! x = Some q /\ is_map q = false).
Proof.
  intros Hdb Hc. split.
  - intros (e & h' & H). split.
    + by destruct (SetF_loop_error T v flags xs [] db e h h' Hdb Hc H) as (_ & ? & _).
    + exact (SetF_loop_error_at T v flags xs [] db e h h' Hdb Hc H).
  - intros (Hf & pre & x & post & p & q & -> & Hpost & Hw & Hq & Hm).
    exists (bad_path (pre ++ [x])), h.
    rewrite (SetF_reaches T v flags db pre (x :: post) p h Hw) by done.
    assert (is_Some (content h p)) as [m Hp].
    { unfold map_of in Hq. destruct (content h p); [done|].
      simpl in Hq. by rewrite lookup_empty in Hq. }
    pose proof (SetF_loop_inner_made T v flags pre x post p h m Hpost Hp) as E.
    cbv zeta in E. rewrite E. rewrite (map_of_content _ _ _ Hp) in Hq.
    rewrite Hq, Hf. by destruct q.
Qed.

Lemma SetF_fails_iff_witness :
  (exists e h', SetF TAny (Some 1%positive) ["foo"; "bar"] (VInt 1) MergeMaps
                  {[1%positive := {["foo" := VString "bar"]}]} = Done (Some e) h')
  <-> (has_flag MergeMaps ForceThrough = false
       /\ exists pre x post p q,
            ["foo"; "bar"] = pre ++ x :: post /\ post ≠ []
            /\ walk {[1%positive := {["foo" := VString "bar"]}]} (Some 1%positive) pre
               = Some p
            /\ map_of {[1%positive := {["foo" := VString "bar"]}]} p !! x = Some q
            /\ is_map q = false).
Proof.
  apply (SetF_fails_iff TAny (Some 1%positive) ["foo"; "bar"] (VInt 1) MergeMaps
           {[1%positive := {["foo" := VString "bar"]}]}).
  - eexists. vm_compute. reflexivity.
  - apply closedb_closed. vm_compute. reflexivity.
Defined.

(** ** Nil maps under [SetF] *)

(** At its last segment in a nil map [SetF] finds nothing to merge with
    or to append to, and its assignment panics. *)
Lemma SetF_loop_final_nil T v flags pre x p (h : heap) :
  content h p = None ->
  SetF_loop T (pre ++ [x]) v flags (length pre) [x] p h
  = Panic "assignment to entry in nil map".
Proof.
  intros Hp. rewrite SetF_loop_final.
  assert (map_of h p !! x = None) as Hx.
  { unfold map_of. rewrite Hp. apply lookup_empty. }
  assert (merge_applies flags v (default VNil (map_of h p !! x)) = false) as Hm.
  { rewrite Hx. unfold merge_applies. simpl. apply andb_false_r. }
  assert (append_applies T flags v (default VNil (map_of h p !! x)) = false) as Ha.
  { rewrite Hx. unfold append_applies. simpl. rewrite assertable_nil.
    apply andb_false_r. }
  rewrite (bind_Done _ _ _ _ _ (try_merge_skip flags v p x h Hm)).
  rewrite (bind_Done _ _ _ _ _ (try_append_skip T flags v p x h Ha)).
  unM. unfold map_assign. by rewrite Hp.
Qed.

(** The merge into a nil map under the last segment goes through the
    entries of the new map: it panics at the first, and does nothing
    when there is none. *)
Lemma SetF_loop_final_merge_nil T flags w pre x p q (h : heap) :
  has_flag flags MergeMaps = true ->
  map_of h p !! x = Some (VMap q) -> content h q = None ->
  SetF_loop T (pre ++ [x]) (VMap w) flags (length pre) [x] p h
  = if decide (map_of h w = ∅) then Done None h
    else Panic "assignment to entry in nil map".
Proof.
  intros Hf Hx Hq. rewrite SetF_loop_final. unfold try_merge. rewrite Hf.
  unM. rewrite map_index_run, Hx. simpl. unfold merge_into, map_range. unM.
  destruct (map_to_list (map_of h w)) as [|[k y] kvs] eqn:E.
  - apply map_to_list_empty_iff in E. by rewrite decide_True.
  - rewrite decide_False.
    + simpl. unM. unfold map_assign. by rewrite Hq.
    + intros E'. rewrite E' in E. by rewrite map_to_list_empty in E.
Qed.

(** Before the last segment every key is absent from the nil map, and
    the assignment of the map made for it panics. *)
Lemma SetF_loop_inner_nil T v flags pre x post (h : heap) :
  post ≠ [] ->
  SetF_loop T (pre ++ x :: post) v flags (length pre) (x :: post) None h
  = Panic "assignment to entry in nil map".
Proof. intros Hne. by rewrite SetF_loop_inner. Qed.

(** C2, on a nil map.  [Set] itself puts a nil map in the tree.  With
    the nil map as current map the last segment is not overwritten: the
    assignment panics, here and in every store.  With the nil map under
    the last segment the merge of a map that has an entry panics too,
    here and in every store. *)
Lemma SetF_final_segment_nil_map_panics :
  Set_ (Some 1%positive) ["a"] (VMap None) {[1%positive := ∅]}
  = Done None {[1%positive := {["a" := VMap None]}]}
  /\ SetF TAny (Some 1%positive) ["a"; "b"] (VInt 1) 0
          {[1%positive := {["a" := VMap None]}]}
     = Panic "assignment to entry in nil map"
  /\ merge_applies MergeMaps (VMap (Some 2%positive)) (VMap None) = true
  /\ SetF TAny (Some 1%positive) ["a"] (VMap (Some 2%positive)) MergeMaps
          {[1%positive := {["a" := VMap None]};
            2%positive := {["k" := VInt 1]}]}
     = Panic "assignment to entry in nil map"
  /\ (forall T v flags pre x p (h : heap),
        content h p = None ->
        SetF_loop T (pre ++ [x]) v flags (length pre) [x] p h
        = Panic "assignment to entry in nil map")
  /\ (forall T flags w pre x p q (h : heap),
        has_flag flags MergeMaps = true ->
        map_of h p !! x = Some (VMap q) -> content h q = None ->
        map_of h w ≠ ∅ ->
        SetF_loop T (pre ++ [x]) (VMap w) flags (length pre) [x] p h
        = Panic "assignment to entry in nil map")
  /\ ~ (forall T v flags pre x p (h : heap),
          let px := default VNil (map_of h p !! x) in
          merge_applies flags v px = false ->
          append_applies T flags v px = false ->
          exists h',
            SetF_loop T (pre ++ [x]) v flags (length pre) [x] p h = Done None h'
            /\ map_of h' p !! x = Some v).
Proof.
  split; [vm_compute; reflexivity|].
  split; [vm_compute; reflexivity|].
  split; [reflexivity|].
  split; [vm_compute; reflexivity|].
  split; [apply SetF_loop_final_nil|].
  split.
  { intros T flags w pre x p q h Hf Hx Hq Hw.
    rewrite (SetF_loop_final_merge_nil T flags w pre x p q h Hf Hx Hq).
    by rewrite decide_False. }
  intros H.
  destruct (H TAny (VInt 1) 0 ["a"] "b" None
              {[1%positive := {["a" := VMap None]}]} eq_refl eq_refl)
    as (h' & Hrun & _).
  rewrite (SetF_loop_final_nil TAny (VInt 1) 0 ["a"] "b" None _ eq_refl) in Hrun.
  discriminate Hrun.
Qed.

(** C3, on a nil map.  In the nil map [Set] has put under [a], the
    segment [b], which is not the last, is absent, and [SetF] does not
    make a map for it: the assignment panics, here and in every store. *)
Lemma SetF_intermediate_segment_nil_map_panics :
  Set_ (Some 1%positive) ["a"] (VMap None) {[1%positive := ∅]}
  = Done None {[1%positive := {["a" := VMap None]}]}
  /\ walk {[1%positive := {["a" := VMap None]}]} (Some 1%positive) ["a"]
     = Some None
  /\ map_of {[1%positive := {["a" := VMap None]}]} None !! "b" = None
  /\ SetF TAny (Some 1%positive) ["a"; "b"; "c"] (VInt 1) 0
          {[1%positive := {["a" := VMap None]}]}
     = Panic "assignment to entry in nil map"
  /\ (forall T v flags pre x post (h : heap),
        post ≠ [] ->
        SetF_loop T (pre ++ x :: post) v flags (length pre) (x :: post) None h
        = Panic "assignment to entry in nil map")
  /\ ~ (forall T v flags pre x post p (h : heap),
          post ≠ [] -> map_of h p !! x = None ->
          exists e h',
            SetF_loop T (pre ++ x :: post) v flags (length pre) (x :: post) p h
            = Done e h').
Proof.
  split; [vm_compute; reflexivity|].
  split; [vm_compute; reflexivity|].
  split; [reflexivity|].
  split; [vm_compute; reflexivity|].
  split; [apply SetF_loop_inner_nil|].
  intros H.
  destruct (H TAny (VInt 1) 0 ["a"] "b" ["c"] None
              {[1%positive := {["a" := VMap None]}]} ltac:(done) eq_refl)
    as (e & h' & Hrun).
  rewrite SetF_loop_inner_nil in Hrun by done. discriminate Hrun.
Qed.

(** ** The directory over the file *)

(** A walk through maps and one more segment that holds a map. *)
Lemma walk_snoc (h : heap) pre : forall db x q,
  walk h db (pre ++ [x]) = Some q <->
  exists p, walk h db pre = Some p /\ map_of h p !! x = Some (VMap q).
Proof.
  induction pre as [|k pre IH]; intros db x q; simpl.
  - split.
    + destruct (map_of h db !! x) as [[| | | | |r|]|] eqn:E; try done.
      intros [= ->]. by exists db.
    + intros (p & [= <-] & ->). done.
  - destruct (map_of h db !! k) as [[| | | | |r|]|]; try apply IH;
      (split; [done | by intros (? & ? & _)]).
Qed.

(** Changing the map a walk ends in does not change the walk, when the
    walk does not pass a map twice. *)
Lemma walk_set_last (h : heap) pre : forall db p m',
  walk h db pre = Some p -> NoDup (path_maps h db pre) ->
  walk (set_content p m' h) db pre = Some p.
Proof.
  induction pre as [|k pre IH]; intros db p m' Hw Hnd; simpl in *; [done|].
  destruct (map_of h db !! k) as [[| | | | |r|]|] eqn:E; try done.
  apply NoDup_cons in Hnd as [Hdb Hnd].
  assert (db ≠ p) as Hne.
  { intros ->. apply Hdb. by apply walk_in_path_maps. }
  rewrite (map_of_set_content_other p db m' h Hne), E. by apply IH.
Qed.

Section LoaderOrder.

Variable os_ReadFile : string -> string * option error.
Variable json_Unmarshal : string -> M (value * option error).
Variable Walk_visits : string -> list (string * bool * option error).

Lemma ReadFile_decoded (fn bs : string) (v : value) (h h' : heap) :
  os_ReadFile fn = (bs, None) ->
  json_Unmarshal bs h = Done (v, None) h' ->
  ReadFile os_ReadFile json_Unmarshal fn h = Done (v, None) h'.
Proof. intros Hread Hdec. unfold ReadFile. rewrite Hread. unM. by rewrite Hdec. Qed.

(** The file candidate that holds an object: its entries are put in the
    root of the tree, over the entries the root had. *)
Lemma ReadAndStoreFile_candidate (path dn fn bs0 rel0 : string) (db z : mapref)
    (m : gmap string value) (h hz : heap) :
  GetPaths path = (dn, fn) ->
  os_ReadFile fn = (bs0, None) ->
  json_Unmarshal bs0 h = Done (VMap z, None) hz ->
  content hz db = Some m ->
  filepath_Rel dn fn = (rel0, None) ->
  ReadAndStoreFile os_ReadFile json_Unmarshal dn fn db h
  = Done None (set_content db (map_of hz z ∪ m) hz).
Proof.
  intros Hpaths Hread Hdec Hdb Hrel.
  destruct (GetPaths_pair path) as [dn' E]. rewrite E in Hpaths.
  injection Hpaths as -> <-.
  unfold ReadAndStoreFile.
  rewrite (bind_Done _ _ _ _ _ (ReadFile_decoded _ _ _ _ _ Hread Hdec)).
  unfold Store. rewrite Hrel, isRoot_candidate.
  by rewrite (bind_Done _ _ _ _ _ (merge_into_run db z hz m Hdb)).
Qed.

(** A file of the directory that is not its root file is set at the key
    path its name gives. *)
Lemma ReadAndStoreFile_sets (ind f bs1 rel : string) (db : mapref) (v : value)
    (hm hd : heap) :
  os_ReadFile f = (bs1, None) ->
  json_Unmarshal bs1 hm = Done (v, None) hd ->
  filepath_Rel ind f = (rel, None) -> isRoot ind f = false ->
  ReadAndStoreFile os_ReadFile json_Unmarshal ind f db hm
  = Set_ db (splitPath (strings_TrimSuffix rel (filepath_Ext f))) v hd.
Proof.
  intros Hread Hdec Hrel Hroot. unfold ReadAndStoreFile.
  rewrite (bind_Done _ _ _ _ _ (ReadFile_decoded _ _ _ _ _ Hread Hdec)).
  unfold Store. by rewrite Hrel, Hroot.
Qed.

(** The walk goes on from the store its first visits have left. *)
Lemma walk_calls_after (ind : string) (db : mapref)
    (before visits : list (string * bool * option error)) : forall (h hm : heap),
  walk_calls os_ReadFile json_Unmarshal ind db before h = Done None hm ->
  walk_calls os_ReadFile json_Unmarshal ind db (before ++ visits) h
  = walk_calls os_ReadFile json_Unmarshal ind db visits hm.
Proof.
  induction before as [|[[fn is_dir] err] before IH]; intros h hm.
  { by intros [= ->]. }
  cbn [app walk_calls]. destruct err as [e|]; [done|].
  destruct is_dir; [apply IH|]. unM.
  destruct (ReadAndStoreFile os_ReadFile json_Unmarshal ind fn db h)
    as [[e|] h1|msg]; [done | apply IH | done].
Qed.

(** [DoReadAndStore] when the file candidate has been read without
    error and the walk of the directory has come to a file. *)
Lemma DoReadAndStore_at_visit (path dn fn f : string) (db : mapref)
    (h h0 hm : heap) before after :
  GetPaths path = (dn, fn) ->
  ReadAndStoreFile os_ReadFile json_Unmarshal dn fn db h = Done None h0 ->
  Walk_visits dn = before ++ (f, false, None) :: after ->
  walk_calls os_ReadFile json_Unmarshal dn db before h0 = Done None hm ->
  (forall h1,
     ReadAndStoreFile os_ReadFile json_Unmarshal dn f db hm = Done None h1 ->
     walk_calls os_ReadFile json_Unmarshal dn db (before ++ [(f, false, None)]) h0
     = Done None h1
     /\ (after = [] ->
         DoReadAndStore os_ReadFile json_Unmarshal Walk_visits path db h
         = Done None h1))
  /\ (forall e h1,
        ReadAndStoreFile os_ReadFile json_Unmarshal dn f db hm = Done (Some e) h1 ->
        Is_ErrNotExist e = false ->
        DoReadAndStore os_ReadFile json_Unmarshal Walk_visits path db h
        = Done (Some e) h1).
Proof.
  intros Hpaths Hfile Hvisits Hbefore.
  assert (forall visits,
    walk_calls os_ReadFile json_Unmarshal dn db
      (before ++ (f, false, None) :: visits) h0
    = (r ← ReadAndStoreFile os_ReadFile json_Unmarshal dn f db;
       match r with
       | Some e => ret (Some e)
       | None => walk_calls os_ReadFile json_Unmarshal dn db visits
       end) hm) as Hwalk.
  { intros visits. by rewrite (walk_calls_after dn db before _ h0 hm Hbefore). }
  split.
  - intros h1 Hf. split.
    + by rewrite Hwalk, (bind_Done _ _ _ _ _ Hf).
    + intros ->. unfold DoReadAndStore. rewrite Hpaths.
      rewrite (bind_Done _ _ _ _ _ Hfile). simpl.
      unfold ReadAndStoreDir. rewrite Hvisits.
      assert (walk_calls os_ReadFile json_Unmarshal dn db
                (before ++ [(f, false, None)]) h0 = Done None h1) as Hdir
        by (by rewrite Hwalk, (bind_Done _ _ _ _ _ Hf)).
      by rewrite (bind_Done _ _ _ _ _ Hdir).
  - intros e h1 Hf He. unfold DoReadAndStore. rewrite Hpaths.
    rewrite (bind_Done _ _ _ _ _ Hfile). simpl.
    unfold ReadAndStoreDir. rewrite Hvisits.
    assert (walk_calls os_ReadFile json_Unmarshal dn db
              (before ++ (f, false, None) :: after) h0 = Done (Some e) h1) as Hdir
      by (by rewrite Hwalk, (bind_Done _ _ _ _ _ Hf)).
    rewrite (bind_Done _ _ _ _ _ Hdir). simpl. by rewrite He.
Qed.

(** C6.  [DoReadAndStore] reads the file candidate and then the
    directory candidate, in the store the file has left.

    (1) When each of the two is read without error or fails for want of
    the file or of the directory, [DoReadAndStore] returns no error if
    one of the two was read without error, the store being the one the
    directory left, and the two errors joined if both failed.  So it is
    when [os.ReadFile] does not find the file candidate, when the walk
    does not find the directory candidate, and when both happen.

    (2) Let the file candidate hold an object [z], [filepath.Rel] relate
    it to the directory candidate, and the tree be a made map: the
    entries of [z] are put in the root of the tree, over those it had.
    Let then the walk of the directory come, its visits [before] done
    without error, to a file [f] that holds the value [v], that
    [filepath.Rel] relates to the directory and that is not its root
    file; [xs] is the key path of [f], and [hd] the store after [v] is
    decoded.
    - When [xs] leads through maps of the tree, not passing a map twice,
      and [v] and what the tree holds at [xs] are not both maps, the
      visit of [f] puts [v] at [xs]: [Get] at [xs] answers with [v],
      whatever the file candidate had put there.
    - When both are maps, the one of the tree made, the visit puts the
      entries of [v] in the map of the tree: [Get] at a key below [xs]
      answers with the entry of [v] when [v] has that key, and with what
      the tree held otherwise.
    In both cases [DoReadAndStore] returns no error in that store when
    [f] is the last visit.
    - When [xs] meets before its last segment a value that is not a map,
      nothing is put in the tree: [DoReadAndStore] returns the bad path
      error of the segments up to that one, whatever the visits after
      [f] would be. *)
Theorem DoReadAndStore_file_then_directory (path dn fn : string)
    (db : mapref) (h : heap) :
  GetPaths path = (dn, fn) ->
  let run := DoReadAndStore os_ReadFile json_Unmarshal Walk_visits path db h in
  (forall (h0 h1 : heap) (err0 err1 : option error),
     ReadAndStoreFile os_ReadFile json_Unmarshal dn fn db h = Done err0 h0 ->
     fatal err0 = false ->
     ReadAndStoreDir os_ReadFile json_Unmarshal Walk_visits dn db h0
       = Done err1 h1 ->
     fatal err1 = false ->
     (err0 = None \/ err1 = None -> run = Done None h1)
     /\ (forall e0 e1, err0 = Some e0 -> err1 = Some e1 ->
           Is_ErrNotExist e0 = true /\ Is_ErrNotExist e1 = true
           /\ run = Done (Some (joinError e0 e1)) h1))
  /\ (forall (bs : string) (e : error),
        os_ReadFile fn = (bs, Some e) -> Is_ErrNotExist e = true ->
        (forall h1,
           ReadAndStoreDir os_ReadFile json_Unmarshal Walk_visits dn db h
             = Done None h1 ->
           run = Done None h1)
        /\ (forall f d e1 rest,
              Walk_visits dn = (f, d, Some e1) :: rest ->
              Is_ErrNotExist e1 = true ->
              run = Done (Some (joinError
                                  (wrapError ("reading " ++ fn ++ ": " ++ Error e) e)
                                  e1)) h))
  /\ (forall f d e1 rest (h0 : heap),
        Walk_visits dn = (f, d, Some e1) :: rest -> Is_ErrNotExist e1 = true ->
        ReadAndStoreFile os_ReadFile json_Unmarshal dn fn db h = Done None h0 ->
        run = Done None h0)
  /\ (forall (bs0 rel0 f bs1 rel : string) (z : mapref) (m : gmap string value)
        (v : value) (hz hm hd : heap)
        (before after : list (string * bool * option error)),
     os_ReadFile fn = (bs0, None) ->
     json_Unmarshal bs0 h = Done (VMap z, None) hz ->
     content hz db = Some m ->
     filepath_Rel dn fn = (rel0, None) ->
     let h0 := set_content db (map_of hz z ∪ m) hz in
     Walk_visits dn = before ++ (f, false, None) :: after ->
     walk_calls os_ReadFile json_Unmarshal dn db before h0 = Done None hm ->
     os_ReadFile f = (bs1, None) ->
     json_Unmarshal bs1 hm = Done (v, None) hd ->
     filepath_Rel dn f = (rel, None) -> isRoot dn f = false ->
     let xs := splitPath (strings_TrimSuffix rel (filepath_Ext f)) in
     let visit := walk_calls os_ReadFile json_Unmarshal dn db
                    (before ++ [(f, false, None)]) h0 in
     ReadAndStoreFile os_ReadFile json_Unmarshal dn fn db h = Done None h0
     /\ (forall pre x p mp,
           xs = pre ++ [x] -> walk hd db pre = Some p ->
           content hd p = Some mp -> NoDup (path_maps hd db pre) ->
           is_map v = false \/ is_map (default VNil (mp !! x)) = false ->
           let h1 := set_content p (<[x := v]> mp) hd in
           visit = Done None h1
           /\ (forall T, Get T db xs h1 = Done (Get_answer T xs (Some v)) h1)
           /\ (after = [] -> run = Done None h1))
     /\ (forall w q mq,
           v = VMap w -> walk hd db xs = Some q ->
           content hd q = Some mq -> NoDup (path_maps hd db xs) ->
           let h1 := set_content q (map_of hd w ∪ mq) hd in
           visit = Done None h1
           /\ (forall T k,
                 Get T db (xs ++ [k]) h1
                 = Done (Get_answer T (xs ++ [k])
                           (match map_of hd w !! k with
                            | Some y => Some y
                            | None => mq !! k
                            end)) h1)
           /\ (after = [] -> run = Done None h1))
     /\ (forall pre y more p q,
           xs = pre ++ y :: more -> more ≠ [] -> walk hd db pre = Some p ->
           map_of hd p !! y = Some q -> is_map q = false ->
           run = Done (Some (bad_path (pre ++ [y]))) hd
           /\ Is_ErrNotExist (bad_path (pre ++ [y])) = false)).
Proof.
  intros Hpaths run.
  assert (forall (h0 h1 : heap) err0 err1,
    ReadAndStoreFile os_ReadFile json_Unmarshal dn fn db h = Done err0 h0 ->
    fatal err0 = false ->
    ReadAndStoreDir os_ReadFile json_Unmarshal Walk_visits dn db h0
      = Done err1 h1 ->
    fatal err1 = false ->
    run = Done (match err0, err1 with
                | Some e0, Some e1 => Some (joinError e0 e1)
                | _, _ => None
                end) h1) as Hends.
  { intros h0 h1 err0 err1 Hfile Hf0 Hdir Hf1.
    subst run. unfold DoReadAndStore. rewrite Hpaths.
    rewrite (bind_Done _ _ _ _ _ Hfile), Hf0.
    rewrite (bind_Done _ _ _ _ _ Hdir), Hf1.
    by destruct err0, err1. }
  assert (forall f d e1 rest (h0 : heap),
    Walk_visits dn = (f, d, Some e1) :: rest ->
    ReadAndStoreDir os_ReadFile json_Unmarshal Walk_visits dn db h0
    = Done (Some e1) h0) as Hnodir.
  { intros f d e1 rest h0 Hvisits. unfold ReadAndStoreDir. by rewrite Hvisits. }
  split; [|split; [|split]].
  - intros h0 h1 err0 err1 Hfile Hf0 Hdir Hf1.
    pose proof (Hends h0 h1 err0 err1 Hfile Hf0 Hdir Hf1) as Hrun.
    split.
    + intros [-> | ->]; rewrite Hrun; [done | by destruct err0].
    + intros e0 e1 -> ->. simpl in Hf0, Hf1.
      rewrite negb_false_iff in Hf0, Hf1. done.
  - intros bs e Hread He.
    assert (ReadAndStoreFile os_ReadFile json_Unmarshal dn fn db h
            = Done (Some (wrapError ("reading " ++ fn ++ ": " ++ Error e) e)) h)
      as Hfile.
    { unfold ReadAndStoreFile, ReadFile. by rewrite Hread. }
    split.
    + intros h1 Hdir. rewrite (Hends h h1 _ None Hfile); [done| |done|done].
      simpl. by rewrite He.
    + intros f d e1 rest Hvisits He1.
      rewrite (Hends h h _ (Some e1) Hfile); [done| | |]; simpl.
      * by rewrite He.
      * by apply (Hnodir f d e1 rest).
      * by rewrite He1.
  - intros f d e1 rest h0 Hvisits He1 Hfile.
    rewrite (Hends h0 h0 None (Some e1) Hfile); [done|done| |]; simpl.
    + by apply (Hnodir f d e1 rest).
    + by rewrite He1.
  - clear Hends Hnodir. intros bs0 rel0 f bs1 rel z m v hz hm hd before after
      Hread0 Hdec0 Hdb Hrel0 h0 Hvisits Hbefore Hread1 Hdec1 Hrel Hroot xs visit.
    pose proof (ReadAndStoreFile_candidate path dn fn bs0 rel0 db z m h hz
                  Hpaths Hread0 Hdec0 Hdb Hrel0) as Hfile. fold h0 in Hfile.
    pose proof (ReadAndStoreFile_sets dn f bs1 rel db v hm hd
                  Hread1 Hdec1 Hrel Hroot) as Hset. fold xs in Hset.
    destruct (DoReadAndStore_at_visit path dn fn f db h h0 hm before after
                Hpaths Hfile Hvisits Hbefore) as [Hok Hfail].
    fold visit in Hok. fold run in Hok, Hfail.
    split; [exact Hfile|]. split; [|split].
    + intros pre x p mp Hxs Hw Hp Hnd Hnot h1.
      assert (Set_ db xs v hd = Done None h1) as Hrun.
      { rewrite Hxs. unfold Set_.
        rewrite (SetF_reaches TAny v MergeMaps db pre [x] p hd Hw) by done.
        apply SetF_loop_final_assign; [done| |done].
        unfold merge_applies. destruct Hnot as [-> | ->]; simpl;
          [done | apply andb_false_r]. }
      rewrite <- Hset in Hrun. destruct (Hok h1 Hrun) as [Hvisit Hlast].
      split; [exact Hvisit|]. split; [|exact Hlast].
      intros T. rewrite Hxs.
      rewrite (Get_at_last T h1 db pre x p) by (by apply walk_set_last).
      unfold h1. by rewrite (map_of_set_content_same p mp _ hd Hp), lookup_insert_eq.
    + intros w q mq -> Hw Hq Hnd h1.
      destruct (exists_last (strings_Split_not_nil
                  (strings_TrimSuffix rel (filepath_Ext f)) PathSeparator))
        as (pre & x & Hxs).
      change (xs = pre ++ [x]) in Hxs.
      pose proof Hw as Hw'. rewrite Hxs in Hw'.
      apply walk_snoc in Hw' as (p & Hp & Hx).
      assert (Set_ db xs (VMap w) hd = Done None h1) as Hrun.
      { rewrite Hxs. unfold Set_.
        rewrite (SetF_reaches TAny _ MergeMaps db pre [x] p hd Hp) by done.
        by apply SetF_loop_final_merge. }
      rewrite <- Hset in Hrun. destruct (Hok h1 Hrun) as [Hvisit Hlast].
      split; [exact Hvisit|]. split; [|exact Hlast].
      intros T k.
      rewrite (Get_at_last T h1 db xs k q) by (by apply walk_set_last).
      unfold h1. rewrite (map_of_set_content_same q mq _ hd Hq).
      by rewrite union_new_wins.
    + intros pre y more p q Hxs Hmore Hw Hy Hq.
      assert (Is_ErrNotExist (bad_path (pre ++ [y])) = false) as He by done.
      split; [|exact He]. apply Hfail; [|exact He].
      rewrite Hset, Hxs. unfold Set_.
      rewrite (SetF_reaches TAny v MergeMaps db pre (y :: more) p hd Hw) by done.
      rewrite SetF_loop_inner by done. rewrite Hy. by destruct q.
Qed.

End LoaderOrder.

(** The files of the specification: [root.json] holds [foo] set to
    [bar] and [root/foo.json] holds [baz]; the tree ends with [foo] set
    to [baz].  With an object under [conf] in [root.json] and an object
    in [root/conf.json], the tree ends with the keys of both under
    [conf], [foo] being the one of the directory.  With [root/foo/x.json]
    beside the first [root.json], the bad path error of [foo]. *)
Lemma DoReadAndStore_file_then_directory_witness :
  (DoReadAndStore demo_ReadFile demo_Unmarshal demo_Walk "root"
     (Some 1%positive) {[1%positive := ∅]}
   = Done None {[1%positive := {["foo" := VString "baz"]};
                 2%positive := {["foo" := VString "bar"]}]}
   /\ Get TString (Some 1%positive) ["foo"]
        {[1%positive := {["foo" := VString "baz"]};
          2%positive := {["foo" := VString "bar"]}]}
      = Done (VString "baz", None)
          {[1%positive := {["foo" := VString "baz"]};
            2%positive := {["foo" := VString "bar"]}]})
  /\ (let h1 : heap :=
         {[1%positive := {["conf" := VMap (Some 3%positive)]};
           2%positive := {["conf" := VMap (Some 3%positive)]};
           3%positive := {["foo" := VString "bar"; "keep" := VString "me"]};
           4%positive := {["foo" := VString "bar"]}]} in
      DoReadAndStore conf_ReadFile conf_Unmarshal conf_Walk "root"
        (Some 1%positive) {[1%positive := ∅]} = Done None h1
      /\ Get TString (Some 1%positive) ["conf"; "foo"] h1
         = Done (VString "bar", None) h1
      /\ Get TString (Some 1%positive) ["conf"; "keep"] h1
         = Done (VString "me", None) h1)
  /\ DoReadAndStore nested_ReadFile demo_Unmarshal nested_Walk "root"
       (Some 1%positive) {[1%positive := ∅]}
     = Done (Some (bad_path ["foo"]))
         {[1%positive := {["foo" := VString "bar"]};
           2%positive := {["foo" := VString "bar"]}]}.
Proof.
  split; [|split].
  - destruct (DoReadAndStore_file_then_directory demo_ReadFile demo_Unmarshal
                demo_Walk "root" "root" "root.json" (Some 1%positive)
                {[1%positive := ∅]}) as (_ & _ & _ & Hover); [vm_compute; reflexivity|].
    destruct (Hover doc_object "../root.json" "root/foo.json" doc_string
                "foo.json" (Some 2%positive) ∅ (VString "baz")
                {[1%positive := ∅; 2%positive := {["foo" := VString "bar"]}]}
                {[1%positive := {["foo" := VString "bar"]};
                  2%positive := {["foo" := VString "bar"]}]}
                {[1%positive := {["foo" := VString "bar"]};
                  2%positive := {["foo" := VString "bar"]}]}
                [("root", true, None)] [])
      as (_ & Hleaf & _); [vm_compute; reflexivity ..|].
    destruct (Hleaf [] "foo" (Some 1%positive) {["foo" := VString "bar"]})
      as (_ & Hget & Hrun);
      [vm_compute; reflexivity .. | apply NoDup_singleton | by left |].
    split.
    + etransitivity; [apply Hrun; reflexivity | vm_compute; reflexivity].
    + pose proof (Hget TString) as E. vm_compute in E. vm_compute. exact E.
  - destruct (DoReadAndStore_file_then_directory conf_ReadFile conf_Unmarshal
                conf_Walk "root" "root" "root.json" (Some 1%positive)
                {[1%positive := ∅]}) as (_ & _ & _ & Hover); [vm_compute; reflexivity|].
    destruct (Hover doc_conf "../root.json" "root/conf.json" doc_object
                "conf.json" (Some 2%positive) ∅ (VMap (Some 4%positive))
                {[1%positive := ∅;
                  2%positive := {["conf" := VMap (Some 3%positive)]};
                  3%positive := {["foo" := VString "old"; "keep" := VString "me"]}]}
                {[1%positive := {["conf" := VMap (Some 3%positive)]};
                  2%positive := {["conf" := VMap (Some 3%positive)]};
                  3%positive := {["foo" := VString "old"; "keep" := VString "me"]}]}
                {[1%positive := {["conf" := VMap (Some 3%positive)]};
                  2%positive := {["conf" := VMap (Some 3%positive)]};
                  3%positive := {["foo" := VString "old"; "keep" := VString "me"]};
                  4%positive := {["foo" := VString "bar"]}]}
                [("root", true, None)] [])
      as (_ & _ & Hmerge & _); [vm_compute; reflexivity ..|].
    destruct (Hmerge (Some 4%positive) (Some 3%positive)
                {["foo" := VString "old"; "keep" := VString "me"]})
      as (_ & Hget & Hrun);
      [vm_compute; reflexivity ..
      | apply (bool_decide_unpack _); vm_compute; reflexivity |].
    cbv zeta. split; [|split].
    + etransitivity; [apply Hrun; reflexivity | vm_compute; reflexivity].
    + pose proof (Hget TString "foo") as E. vm_compute in E. vm_compute. exact E.
    + pose proof (Hget TString "keep") as E. vm_compute in E. vm_compute. exact E.
  - destruct (DoReadAndStore_file_then_directory nested_ReadFile demo_Unmarshal
                nested_Walk "root" "root" "root.json" (Some 1%positive)
                {[1%positive := ∅]}) as (_ & _ & _ & Hover); [vm_compute; reflexivity|].
    destruct (Hover doc_object "../root.json" "root/foo/x.json" doc_string
                "foo/x.json" (Some 2%positive) ∅ (VString "baz")
                {[1%positive := ∅; 2%positive := {["foo" := VString "bar"]}]}
                {[1%positive := {["foo" := VString "bar"]};
                  2%positive := {["foo" := VString "bar"]}]}
                {[1%positive := {["foo" := VString "bar"]};
                  2%positive := {["foo" := VString "bar"]}]}
                [("root", true, None); ("root/foo", true, None)] [])
      as (_ & _ & _ & Hbad); [vm_compute; reflexivity ..|].
    destruct (Hbad [] "foo" ["x"] (Some 1%positive) (VString "bar"))
      as [Hrun _]; [vm_compute; reflexivity | done | vm_compute; reflexivity ..|].
    exact Hrun.
Defined.

(** C6, where the directory does not win.  With [foo] set to the string
    [bar] by [root.json], the file [root/foo/x.json] cannot be stored:
    [DoReadAndStore] returns the bad path error of [foo], which is not
    the want of a file, and the tree holds what the file candidate put
    in it and not the value of the directory.  In a nil tree the
    entries of the file candidate cannot be put: the assignment
    panics. *)
Lemma DoReadAndStore_directory_below_value :
  DoReadAndStore nested_ReadFile demo_Unmarshal nested_Walk "root"
    (Some 1%positive) {[1%positive := ∅]}
  = Done (Some (bad_path ["foo"]))
      {[1%positive := {["foo" := VString "bar"]};
        2%positive := {["foo" := VString "bar"]}]}
  /\ Error (bad_path ["foo"]) = "bad path: foo"
  /\ Is_ErrNotExist (bad_path ["foo"]) = false
  /\ Get TAny (Some 1%positive) ["foo"]
       {[1%positive := {["foo" := VString "bar"]};
         2%positive := {["foo" := VString "bar"]}]}
     = Done (VString "bar", None)
         {[1%positive := {["foo" := VString "bar"]};
           2%positive := {["foo" := VString "bar"]}]}
  /\ Get TString (Some 1%positive) ["foo"; "x"]
       {[1%positive := {["foo" := VString "bar"]};
         2%positive := {["foo" := VString "bar"]}]}
     = Done (VString "", Some (bad_path ["foo"]))
         {[1%positive := {["foo" := VString "bar"]};
           2%positive := {["foo" := VString "bar"]}]}
  /\ DoReadAndStore demo_ReadFile demo_Unmarshal demo_Walk "root" None ∅
     = Panic "assignment to entry in nil map".
Proof. repeat split; vm_compute; reflexivity. Qed.
